(** * quickserve: the in-memory user store and its HTTP adapter

    A shallow embedding of [main.go].

    - [GoInt]: Go's [int], 64 bits, with wrap-around.
    - The store ([UserStore]): a Go [map[int]User] and the counter [next].
      Both are guarded by one [sync.RWMutex], and every method holds it from
      its first statement to its return, so the sequential part treats one
      method call as one transition on the guarded data ([Create], [Get],
      [List], [Delete], and [step] and [exec] for sequences of calls).
    - [Http]: the handlers of [/users/{id}] as programs that call the store.
    - [Concurrent]: goroutines that run [Create] statement by statement
      under the mutex, for the scenario of [TestUserStoreConcurrent]; its
      invariant [linearized] relates every interleaving to a sequence of
      whole calls.
    - [Adapter]: the handler of [POST /users].
    - [Goroutines]: goroutines that run any of the four methods statement
      by statement, writers under [Lock] and readers under [RLock]; its
      invariant [serialized] does for all methods what [linearized] does
      for [Create].

    Definitions come first, then the properties. *)

From Stdlib Require Import ZArith Lia Ascii.
From stdpp Require Import gmap strings list fin_maps.

Local Open Scope Z_scope.

(** ** Go's [int] *)

(** [int] is a 64-bit two's complement integer on the platforms the server
    targets; arithmetic wraps around silently. *)
Module GoInt.

Definition intSize : Z := 64.
Definition MaxInt : Z := 2 ^ (intSize - 1) - 1.
Definition MinInt : Z := - 2 ^ (intSize - 1).

Definition in_range (z : Z) : Prop := MinInt <= z <= MaxInt.
Definition in_rangeb (z : Z) : bool := (MinInt <=? z) && (z <=? MaxInt).

(** The representative of [z] modulo [2^64] that lies in the [int] range. *)
Definition wrap (z : Z) : Z :=
  Z.modulo (z + 2 ^ (intSize - 1)) (2 ^ intSize) - 2 ^ (intSize - 1).

(** [x++] on an [int]. *)
Definition incr (x : Z) : Z := wrap (x + 1).

End GoInt.

(** ** Data model *)

(** [type User struct { ID int; Name string; Email string }] *)
Record User : Type := mkUser { ID : Z; Name : string; Email : string }.

(** The zero value of [User], which a map lookup yields for a missing key. *)
Definition zeroUser : User := mkUser 0 "" "".

(** The data of [UserStore] that the mutex [mu] guards.  A store is only ever
    built by [NewUserStore], so the map is an allocated one. *)
Record UserStore : Type := mkStore { users : gmap Z User; next : Z }.

(** [NewUserStore] *)
Definition NewUserStore : UserStore := mkStore ∅ 1.

(** ** The store's methods, one call as one transition *)

(** [Create]: build the record with [ID: s.next], store it under [s.next],
    increment [s.next], return the record. *)
Definition Create (s : UserStore) (name email : string) : User * UserStore :=
  let user := mkUser (next s) name email in
  let s1 := mkStore (<[next s := user]> (users s)) (next s) in
  let s2 := mkStore (users s1) (GoInt.incr (next s1)) in
  (user, s2).

(** [Get]: the comma-ok lookup [user, ok := s.users[id]]. *)
Definition Get (s : UserStore) (id : Z) : (User * bool) * UserStore :=
  match users s !! id with
  | Some user => ((user, true), s)
  | None => ((zeroUser, false), s)
  end.

(** The body of the [range] loop of [List]: each visited entry's value is
    appended to the slice. *)
Definition List_loop (entries : list (Z * User)) : list User :=
  foldl (fun acc kv => acc ++ [snd kv]) [] entries.

(** Go leaves the iteration order of a map unspecified: a [range] over a map
    that is not modified meanwhile visits every entry once, in some order. *)
Definition range_order (m : gmap Z User) (entries : list (Z * User)) : Prop :=
  entries ≡ₚ map_to_list m.

(** [List] with the order the map's canonical enumeration gives. *)
Definition List (s : UserStore) : list User * UserStore :=
  (List_loop (map_to_list (users s)), s).

(** [Delete]: remove the key and report [true] when it is present, report
    [false] otherwise. *)
Definition Delete (s : UserStore) (id : Z) : bool * UserStore :=
  match users s !! id with
  | Some _ => (true, mkStore (delete id (users s)) (next s))
  | None => (false, s)
  end.

(** ** Sequences of calls *)

Inductive Call : Type :=
| CallCreate (name email : string)
| CallGet (id : Z)
| CallList
| CallDelete (id : Z).

Inductive Ret : Type :=
| RetUser (u : User)
| RetGet (u : User) (ok : bool)
| RetList (l : list User)
| RetBool (b : bool).

(** One method call: the state before, the call, what it returns, the state
    after.  [List] may return the records in any iteration order. *)
Inductive step : UserStore -> Call -> Ret -> UserStore -> Prop :=
| step_create s name email :
    step s (CallCreate name email)
         (RetUser (fst (Create s name email))) (snd (Create s name email))
| step_get s id :
    step s (CallGet id)
         (RetGet (fst (fst (Get s id))) (snd (fst (Get s id)))) (snd (Get s id))
| step_list s entries :
    range_order (users s) entries ->
    step s CallList (RetList (List_loop entries)) s
| step_delete s id :
    step s (CallDelete id) (RetBool (fst (Delete s id))) (snd (Delete s id)).

(** A history: the calls made so far with their results, oldest first. *)
Definition History : Type := list (Call * Ret).

Inductive exec (s : UserStore) : History -> UserStore -> Prop :=
| exec_nil : exec s [] s
| exec_snoc h s1 c r s2 :
    exec s h s1 -> step s1 c r s2 -> exec s (h ++ [(c, r)]) s2.

(** A state the server can be in: reached from a fresh store. *)
Definition reachable (s : UserStore) : Prop :=
  exists h, exec NewUserStore h s.

(** The ids handed out by the [Create] calls of a history, oldest first. *)
Definition issued (h : History) : list Z :=
  omap (fun cr => match cr with
                  | (CallCreate _ _, RetUser u) => Some (ID u)
                  | _ => None
                  end) h.

(** The number of [Create] calls of a history (each of them succeeds). *)
Definition is_create (cr : Call * Ret) : bool :=
  match fst cr with CallCreate _ _ => true | _ => false end.

Definition creates (h : History) : nat := length (List.filter is_create h).

(** The number of [Delete] calls of a history that returned [true]. *)
Definition is_delete_ok (cr : Call * Ret) : bool :=
  match cr with (CallDelete _, RetBool true) => true | _ => false end.

Definition deletes_ok (h : History) : nat := length (List.filter is_delete_ok h).

(** Running a list of calls with the canonical [List] order: the history it
    produces and the state it ends in. *)
Definition call (s : UserStore) (c : Call) : Ret * UserStore :=
  match c with
  | CallCreate name email => let r := Create s name email in (RetUser (fst r), snd r)
  | CallGet id => let r := Get s id in (RetGet (fst (fst r)) (snd (fst r)), snd r)
  | CallList => let r := List s in (RetList (fst r), snd r)
  | CallDelete id => let r := Delete s id in (RetBool (fst r), snd r)
  end.

Fixpoint run (s : UserStore) (cs : list Call) : History * UserStore :=
  match cs with
  | [] => ([], s)
  | c :: cs' =>
      let r := call s c in
      let rest := run (snd r) cs' in
      ((c, fst r) :: fst rest, snd rest)
  end.

(** One record that is kept, then [r] rounds of a [Create] whose record is
    deleted right away: the history, and the state it ends in. *)
Definition first_user : User := mkUser 1 "" "".

Fixpoint churn_history (r : nat) : History :=
  match r with
  | O => [(CallCreate "" "", RetUser first_user)]
  | S k =>
      churn_history k ++
      [(CallCreate "" "", RetUser (mkUser (GoInt.wrap (2 + Z.of_nat k)) "" ""));
       (CallDelete (GoInt.wrap (2 + Z.of_nat k)), RetBool true)]
  end.

Definition churn_state (r : nat) : UserStore :=
  mkStore {[1 := first_user]} (GoInt.wrap (2 + Z.of_nat r)).

(** ** The HTTP adapter *)

Module Http.

Definition StatusOK : Z := 200.
Definition StatusNoContent : Z := 204.
Definition StatusBadRequest : Z := 400.
Definition StatusNotFound : Z := 404.

(** What a handler writes to the response body: plain text, or what
    [json.Encoder.Encode] produces for a value (the encoding itself belongs
    to [encoding/json] and is kept abstract). *)
Inductive Chunk : Type :=
| Text (t : string)
| JSONUser (u : User)
| JSONUsers (l : list User).

(** [httptest.ResponseRecorder], the [http.ResponseWriter] of the tests. *)
Record ResponseRecorder : Type := mkRecorder {
  Code : Z;
  HeaderMap : gmap string string;
  Body : list Chunk;
  wroteHeader : bool
}.

Definition NewRecorder : ResponseRecorder := mkRecorder StatusOK ∅ [] false.

(** [w.Header().Set(key, value)] *)
Definition Header_Set (key value : string) (w : ResponseRecorder) : ResponseRecorder :=
  mkRecorder (Code w) (<[key := value]> (HeaderMap w)) (Body w) (wroteHeader w).

(** [w.Header().Del(key)] *)
Definition Header_Del (key : string) (w : ResponseRecorder) : ResponseRecorder :=
  mkRecorder (Code w) (delete key (HeaderMap w)) (Body w) (wroteHeader w).

(** [w.WriteHeader(code)]: only the first call sets the status. *)
Definition WriteHeader (code : Z) (w : ResponseRecorder) : ResponseRecorder :=
  if wroteHeader w then w
  else mkRecorder code (HeaderMap w) (Body w) true.

(** [w.Write(chunk)]: sends the header with status 200 when none was sent. *)
Definition Write (c : Chunk) (w : ResponseRecorder) : ResponseRecorder :=
  let w1 := WriteHeader StatusOK w in
  mkRecorder (Code w1) (HeaderMap w1) (Body w1 ++ [c]) (wroteHeader w1).

(** [http.Error(w, msg, code)] *)
Definition Error (w : ResponseRecorder) (msg : string) (code : Z) : ResponseRecorder :=
  let w1 := Header_Del "Content-Length" w in
  let w2 := Header_Set "Content-Type" "text/plain; charset=utf-8" w1 in
  let w3 := Header_Set "X-Content-Type-Options" "nosniff" w2 in
  let w4 := WriteHeader code w3 in
  Write (Text (msg +:+ String (Ascii.ascii_of_nat 10) "")) w4.

(** The part of [*http.Request] the handlers read: the path wildcards. *)
Record Request : Type := mkRequest { pathValues : gmap string string }.

(** [r.PathValue(name)]: the empty string when there is no such wildcard. *)
Definition PathValue (r : Request) (name : string) : string :=
  default "" (pathValues r !! name).

(** *** [strconv.Atoi] *)

Definition digit (c : Ascii.ascii) : option Z :=
  let n := Z.of_nat (Ascii.nat_of_ascii c) in
  if (48 <=? n) && (n <=? 57) then Some (n - 48) else None.

Fixpoint digits (t : string) (acc : Z) : option Z :=
  match t with
  | EmptyString => Some acc
  | String c t' =>
      match digit c with
      | Some d => digits t' (acc * 10 + d)
      | None => None
      end
  end.

(** An optional sign, then one or more decimal digits, and a value that
    fits an [int]; anything else is an error. *)
Definition Atoi (t : string) : option Z :=
  let '(neg, body) :=
    match t with
    | String "+"%char rest => (false, rest)
    | String "-"%char rest => (true, rest)
    | _ => (false, t)
    end in
  match body with
  | EmptyString => None
  | _ =>
      match digits body 0 with
      | Some n =>
          let v := if neg then - n else n in
          if GoInt.in_rangeb v then Some v else None
      | None => None
      end
  end.

(** *** Handlers

    A handler is a program over the store's methods: it replies, or calls
    one method and goes on with what the method returned. *)
Inductive Handler (R : Type) : Type :=
| Reply (r : R)
| StoreCreate (name email : string) (k : User -> Handler R)
| StoreGet (id : Z) (k : User * bool -> Handler R)
| StoreList (k : list User -> Handler R)
| StoreDelete (id : Z) (k : bool -> Handler R).

Arguments Reply {R} r.
Arguments StoreCreate {R} name email k.
Arguments StoreGet {R} id k.
Arguments StoreList {R} k.
Arguments StoreDelete {R} id k.

(** Whether a handler program calls the store at all. *)
Definition calls_store {R : Type} (p : Handler R) : bool :=
  match p with
  | Reply _ => false
  | _ => true
  end.

(** Serving a request: the handler's calls run on the server's store. *)
Inductive serve {R : Type} : Handler R -> UserStore -> R -> UserStore -> Prop :=
| serve_reply r s : serve (Reply r) s r s
| serve_create name email k s r s' :
    serve (k (fst (Create s name email))) (snd (Create s name email)) r s' ->
    serve (StoreCreate name email k) s r s'
| serve_get id k s r s' :
    serve (k (fst (Get s id))) (snd (Get s id)) r s' ->
    serve (StoreGet id k) s r s'
| serve_list k s entries r s' :
    range_order (users s) entries ->
    serve (k (List_loop entries)) s r s' ->
    serve (StoreList k) s r s'
| serve_delete id k s r s' :
    serve (k (fst (Delete s id))) (snd (Delete s id)) r s' ->
    serve (StoreDelete id k) s r s'.

(** [HandleListUsers] *)
Definition HandleListUsers (w : ResponseRecorder) (r : Request)
  : Handler ResponseRecorder :=
  StoreList (fun us =>
    let w1 := Header_Set "Content-Type" "application/json" w in
    Reply (Write (JSONUsers us) w1)).

(** [HandleGetUser] *)
Definition HandleGetUser (w : ResponseRecorder) (r : Request)
  : Handler ResponseRecorder :=
  let idStr := PathValue r "id" in
  match Atoi idStr with
  | None => Reply (Error w "invalid id" StatusBadRequest)
  | Some id =>
      StoreGet id (fun res =>
        let '(user, ok) := res in
        if negb ok then Reply (Error w "user not found" StatusNotFound)
        else
          let w1 := Header_Set "Content-Type" "application/json" w in
          Reply (Write (JSONUser user) w1))
  end.

(** [HandleDeleteUser] *)
Definition HandleDeleteUser (w : ResponseRecorder) (r : Request)
  : Handler ResponseRecorder :=
  let idStr := PathValue r "id" in
  match Atoi idStr with
  | None => Reply (Error w "invalid id" StatusBadRequest)
  | Some id =>
      StoreDelete id (fun deleted =>
        if negb deleted then Reply (Error w "user not found" StatusNotFound)
        else Reply (WriteHeader StatusNoContent w))
  end.

(** The handler [p], served on the store [s], always ends, with the response
    [resp] and the store [s']. *)
Definition responds {R : Type} (p : Handler R) (s : UserStore)
  (resp : R) (s' : UserStore) : Prop :=
  forall resp0 s0, serve p s resp0 s0 <-> resp0 = resp /\ s0 = s'.

(** What the handlers of [/users/{id}] answer to a request on a fresh
    response writer: 400 without a call of the store when the path id is not
    an [int]; 404 when no record has that id; 204 and no body when [DELETE]
    removed the record. *)
Definition path_id_contract (r : Request) (s : UserStore) : Prop :=
  let idStr := PathValue r "id" in
  let bad := Error NewRecorder "invalid id" StatusBadRequest in
  let missing := Error NewRecorder "user not found" StatusNotFound in
  let gone := WriteHeader StatusNoContent NewRecorder in
  (Atoi idStr = None ->
     calls_store (HandleGetUser NewRecorder r) = false /\
     calls_store (HandleDeleteUser NewRecorder r) = false /\
     responds (HandleGetUser NewRecorder r) s bad s /\
     responds (HandleDeleteUser NewRecorder r) s bad s /\
     Code bad = 400) /\
  (forall id, Atoi idStr = Some id -> users s !! id = None ->
     responds (HandleGetUser NewRecorder r) s missing s /\
     responds (HandleDeleteUser NewRecorder r) s missing s /\
     Code missing = 404) /\
  (forall id, Atoi idStr = Some id -> is_Some (users s !! id) ->
     responds (HandleDeleteUser NewRecorder r) s gone
              (mkStore (delete id (users s)) (next s)) /\
     Code gone = 204 /\ Body gone = []).

End Http.

(** ** Statements about the store *)

(** What [Create] returns and stores. *)
Definition create_result (s : UserStore) (name email : string) : Prop :=
  let u := fst (Create s name email) in
  let s' := snd (Create s name email) in
  ID u = next s /\ Name u = name /\ Email u = email /\
  users s' = <[next s := u]> (users s).

(** What [Create] promises: the record it returns, where it is stored, and
    the counter afterwards. *)
Definition create_post (s : UserStore) (name email : string) : Prop :=
  create_result s name email /\
  next (snd (Create s name email)) = next s + 1.

(** What [Delete] promises, for one call and for a second call right after. *)
Definition delete_post (s : UserStore) (id : Z) : Prop :=
  let r1 := Delete s id in
  let r2 := Delete (snd r1) id in
  (fst r1 = true <-> is_Some (users s !! id)) /\
  (is_Some (users s !! id) ->
     snd r1 = mkStore (delete id (users s)) (next s) /\
     fst r1 = true /\ fst r2 = false) /\
  (users s !! id = None -> fst r1 = false /\ snd r1 = s) /\
  users (snd r1) !! id = None /\
  fst r2 = false.

(** What [Get] promises. *)
Definition get_post (s : UserStore) (id : Z) : Prop :=
  snd (Get s id) = s /\
  (snd (fst (Get s id)) = true <-> is_Some (users s !! id)) /\
  (forall u, users s !! id = Some u -> fst (Get s id) = (u, true)) /\
  (users s !! id = None -> fst (Get s id) = (zeroUser, false)).

(** The ids of a history are fresh: the counter is above all of them, they
    were handed out in increasing order without repetition, and an id that a
    [Delete] removed is not handed out again later. *)
Definition ids_fresh (h : History) (s : UserStore) : Prop :=
  (forall id, id ∈ issued h -> id < next s) /\
  (forall i j a b, issued h !! i = Some a -> issued h !! j = Some b ->
                   (i < j)%nat -> a < b) /\
  NoDup (issued h) /\
  (forall h1 id h2, h = h1 ++ (CallDelete id, RetBool true) :: h2 ->
                    id ∉ issued h2).

(** The keys of the mapping: positive, below the counter, equal to the [ID]
    of the record they map to; nothing is found at an id that is not
    positive. *)
Definition store_inv (s : UserStore) : Prop :=
  (forall id u, users s !! id = Some u -> 1 <= id < next s /\ ID u = id) /\
  (forall id, id <= 0 ->
     snd (fst (Get s id)) = false /\ fst (Delete s id) = false).

(** [List] returns exactly the records of the mapping, in some order, and
    changes nothing. *)
Definition list_snapshot (s : UserStore) : Prop :=
  (exists l, step s CallList (RetList l) s) /\
  (forall r s', step s CallList r s' ->
     exists l, r = RetList l /\ s' = s /\
       l ≡ₚ snd <$> map_to_list (users s) /\
       (forall u, u ∈ l <-> exists id, users s !! id = Some u)).

(** The length of what [List] returns after a history. *)
Definition list_length (h : History) (s : UserStore) : Prop :=
  forall l s', step s CallList (RetList l) s' ->
    Z.of_nat (length l) = Z.of_nat (creates h) - Z.of_nat (deletes_ok h).

(** ** Goroutines that call [Create] concurrently

    The scenario of [TestUserStoreConcurrent]: a number of goroutines, each
    calling [Create] once on the same store; the scheduler may switch between
    them after any statement.  The shared state is the mutex together with
    the data it guards. *)
Module Concurrent.

(** [sync.RWMutex]: held by one writer or by a number of readers. *)
Record RWMutex : Type := mkMutex { writer : bool; readers : nat }.

(** [mu.Lock()] goes through only when nobody holds the mutex; otherwise the
    caller blocks ([None]). *)
Definition Lock (m : RWMutex) : option RWMutex :=
  if writer m || negb (Nat.eqb (readers m) 0) then None
  else Some (mkMutex true (readers m)).

(** [mu.Unlock()]; a run-time error ([None]) when no writer holds the mutex. *)
Definition Unlock (m : RWMutex) : option RWMutex :=
  if writer m then Some (mkMutex false (readers m)) else None.

Record Shared : Type := mkShared { mu : RWMutex; guarded : UserStore }.

(** Where a goroutine stands in [Create]: before the statement named, with
    the local variable [user] once it is assigned. *)
Inductive PC : Type :=
| AtLock                  (* s.mu.Lock(); defer s.mu.Unlock() *)
| AtBuild                 (* user := User{ID: s.next, Name: name, Email: email} *)
| AtStore (user : User)   (* s.users[s.next] = user *)
| AtIncr (user : User)    (* s.next++ *)
| AtReturn (user : User)  (* return user, which runs the deferred Unlock *)
| Returned (user : User).

Record Goroutine : Type := mkGoroutine { arg_name : string; arg_email : string; pc : PC }.

Definition at_pc (g : Goroutine) (p : PC) : Goroutine :=
  mkGoroutine (arg_name g) (arg_email g) p.

(** One statement of one goroutine; [None] when it is blocked or has
    returned. *)
Definition gstep (sh : Shared) (g : Goroutine) : option (Shared * Goroutine) :=
  let s := guarded sh in
  match pc g with
  | AtLock =>
      match Lock (mu sh) with
      | Some m => Some (mkShared m s, at_pc g AtBuild)
      | None => None
      end
  | AtBuild =>
      Some (sh, at_pc g (AtStore (mkUser (next s) (arg_name g) (arg_email g))))
  | AtStore user =>
      Some (mkShared (mu sh) (mkStore (<[next s := user]> (users s)) (next s)),
            at_pc g (AtIncr user))
  | AtIncr user =>
      Some (mkShared (mu sh) (mkStore (users s) (GoInt.incr (next s))),
            at_pc g (AtReturn user))
  | AtReturn user =>
      match Unlock (mu sh) with
      | Some m => Some (mkShared m s, at_pc g (Returned user))
      | None => None
      end
  | Returned _ => None
  end.

Definition Config : Type := Shared * list Goroutine.

(** The scheduler lets goroutine number [i] run one statement. *)
Definition sched_step (i : nat) (cfg : Config) : option Config :=
  match snd cfg !! i with
  | Some g =>
      match gstep (fst cfg) g with
      | Some (sh', g') => Some (sh', <[i := g']> (snd cfg))
      | None => None
      end
  | None => None
  end.

(** An interleaving is the list of the scheduler's choices; it is a run when
    every chosen goroutine could take its step. *)
Fixpoint run_schedule (sched : list nat) (cfg : Config) : option Config :=
  match sched with
  | [] => Some cfg
  | i :: sched' =>
      match sched_step i cfg with
      | Some cfg' => run_schedule sched' cfg'
      | None => None
      end
  end.

(** One goroutine per pair of arguments, on a fresh store. *)
Definition launch (args : list (string * string)) : Config :=
  (mkShared (mkMutex false 0) NewUserStore,
   (fun a => mkGoroutine (fst a) (snd a) AtLock) <$> args).

Definition has_returned (g : Goroutine) : bool :=
  match pc g with Returned _ => true | _ => false end.

Definition all_returned (cfg : Config) : bool := forallb has_returned (snd cfg).

(** What the goroutines that have returned got from [Create]. *)
Definition results (cfg : Config) : list User :=
  omap (fun g => match pc g with Returned u => Some u | _ => None end) (snd cfg).

(** The statements a goroutine still has to run. *)
Definition remaining (g : Goroutine) : nat :=
  match pc g with
  | AtLock => 5 | AtBuild => 4 | AtStore _ => 3 | AtIncr _ => 2
  | AtReturn _ => 1 | Returned _ => 0
  end.

Definition total_remaining (cfg : Config) : nat := sum_list (remaining <$> snd cfg).

(** Between [Lock] and [Unlock]. *)
Definition in_cs (g : Goroutine) : bool :=
  match pc g with
  | AtBuild | AtStore _ | AtIncr _ | AtReturn _ => true
  | AtLock | Returned _ => false
  end.

(** What is left of [Create] for a goroutine inside it, as an update of the
    guarded data. *)
Definition finish (g : Goroutine) (s : UserStore) : UserStore :=
  match pc g with
  | AtBuild => snd (Create s (arg_name g) (arg_email g))
  | AtStore user => mkStore (<[next s := user]> (users s)) (GoInt.incr (next s))
  | AtIncr _ => mkStore (users s) (GoInt.incr (next s))
  | _ => s
  end.

(** The guarded data once the goroutine that holds the mutex, if any, is
    through with its call. *)
Definition settled (cfg : Config) : UserStore :=
  foldr finish (guarded (fst cfg)) (snd cfg).

(** The call of a goroutine that has acquired the mutex, with its result. *)
Definition entry (sh : Shared) (g : Goroutine) : option (Call * Ret) :=
  let c := CallCreate (arg_name g) (arg_email g) in
  match pc g with
  | AtLock => None
  | AtBuild => Some (c, RetUser (mkUser (next (guarded sh)) (arg_name g) (arg_email g)))
  | AtStore u | AtIncr u | AtReturn u | Returned u => Some (c, RetUser u)
  end.

(** The invariant of every run: the mutex is held exactly while one
    goroutine is inside [Create], and the settled data is the outcome of the
    calls that have acquired the mutex, made one after the other. *)
Definition linearized (cfg : Config) : Prop :=
  readers (mu (fst cfg)) = O /\
  length (List.filter in_cs (snd cfg)) = (if writer (mu (fst cfg)) then 1 else 0)%nat /\
  (forall g u, g ∈ snd cfg -> pc g = AtStore u ->
     u = mkUser (next (guarded (fst cfg))) (arg_name g) (arg_email g)) /\
  exists h, exec NewUserStore h (settled cfg) /\
            h ≡ₚ omap (entry (fst cfg)) (snd cfg).

(** What [n] concurrent calls of [Create] on a fresh store come to: every
    interleaving is finite and can be run to the end, at no point of it have
    two calls returned the same id, and at the end there are [n] records,
    under the ids 1 to [n], each call got an id of its own, and [List]
    returns [n] records. *)
Definition concurrent_creates (args : list (string * string)) : Prop :=
  let n := Z.of_nat (length args) in
  (forall sched cfg, run_schedule sched (launch args) = Some cfg ->
     (length sched + total_remaining cfg = 5 * length args)%nat /\
     NoDup (ID <$> results cfg) /\
     exists sched' cfg', run_schedule (sched ++ sched') (launch args) = Some cfg' /\
                         all_returned cfg' = true) /\
  (forall sched cfg, run_schedule sched (launch args) = Some cfg ->
     all_returned cfg = true ->
     let s := guarded (fst cfg) in
     Z.of_nat (size (users s)) = n /\
     (forall id, is_Some (users s !! id) <-> 1 <= id <= n) /\
     NoDup (ID <$> results cfg) /\
     ID <$> results cfg ≡ₚ seqZ 1 n /\
     (forall u, u ∈ results cfg -> users s !! ID u = Some u) /\
     (forall l s', step s CallList (RetList l) s' -> Z.of_nat (length l) = n)).

End Concurrent.

(** ** The rest of the HTTP adapter *)

Module Adapter.

Definition StatusCreated : Z := 201.

(** [HandleCreateUser].  [Decode] stands for
    [json.NewDecoder(r.Body).Decode(&req)] on the request body: the [Name]
    and [Email] fields of the decoded value, or an error ([None]). *)
Definition HandleCreateUser (Decode : string -> option (string * string))
  (w : Http.ResponseRecorder) (body : string) : Http.Handler Http.ResponseRecorder :=
  match Decode body with
  | None => Http.Reply (Http.Error w "invalid request body" Http.StatusBadRequest)
  | Some (name, email) =>
      Http.StoreCreate name email (fun user =>
        let w1 := Http.Header_Set "Content-Type" "application/json" w in
        let w2 := Http.WriteHeader StatusCreated w1 in
        Http.Reply (Http.Write (Http.JSONUser user) w2))
  end.

(** The response with a JSON value as its body that the handlers send on
    success, on a fresh response writer. *)
Definition json_response (code : Z) (c : Http.Chunk) : Http.ResponseRecorder :=
  Http.mkRecorder code {["Content-Type" := "application/json"]} [c] true.

End Adapter.

(** Calling [Create] for each pair of arguments, one call after the other:
    the records returned and the store afterwards. *)
Fixpoint create_all (s : UserStore) (args : list (string * string))
  : list User * UserStore :=
  match args with
  | [] => ([], s)
  | a :: args' =>
      let r := Create s (fst a) (snd a) in
      let rest := create_all (snd r) args' in
      (fst r :: fst rest, snd rest)
  end.

(** The arguments and the results of the [Create] calls of a history. *)
Definition create_args (h : History) : list (string * string) :=
  omap (fun cr => match fst cr with
                  | CallCreate name email => Some (name, email)
                  | _ => None
                  end) h.

Definition create_rets (h : History) : list User :=
  omap (fun cr => match cr with
                  | (CallCreate _ _, RetUser u) => Some u
                  | _ => None
                  end) h.

(** ** Goroutines that call any of the store's methods concurrently

    Every method of the store, statement by statement, under the store's
    [sync.RWMutex]: [Create] and [Delete] take the write lock, [Get] and
    [List] the read lock.  The mutex is modelled by who holds it: [Lock]
    waits until nobody does, [RLock] until no writer does.  (The Go runtime
    also makes new readers wait while a writer is waiting; that only rules
    interleavings out, so what holds for every interleaving here holds for
    every interleaving of the program.  That a statement can run is stated
    only of goroutines that hold the mutex: their statements take no
    lock.) *)
Module Goroutines.

(** [mu.RLock()] goes through unless a writer holds the mutex. *)
Definition RLock (m : Concurrent.RWMutex) : option Concurrent.RWMutex :=
  if Concurrent.writer m then None
  else Some (Concurrent.mkMutex false (S (Concurrent.readers m))).

(** [mu.RUnlock()]; a run-time error ([None]) when no reader holds the
    mutex. *)
Definition RUnlock (m : Concurrent.RWMutex) : option Concurrent.RWMutex :=
  match Concurrent.readers m with
  | O => None
  | S n => Some (Concurrent.mkMutex (Concurrent.writer m) n)
  end.

(** Where a goroutine stands in [Get]. *)
Inductive GetPC : Type :=
| GetRLock                              (* s.mu.RLock(); defer s.mu.RUnlock() *)
| GetLookup                             (* user, ok := s.users[id] *)
| GetReturn (user : User) (ok : bool)   (* return user, ok; runs RUnlock *)
| GetReturned (user : User) (ok : bool).

(** Where a goroutine stands in [List].  Inside the [range] loop the keys
    visited so far are the state of the iteration, [out] is the slice. *)
Inductive ListPC : Type :=
| ListRLock                                      (* s.mu.RLock(); defer s.mu.RUnlock() *)
| ListMake                                       (* users := make([]User, 0, len(s.users)) *)
| ListLoop (visited : list Z) (out : list User)  (* for _, u := range s.users { append } *)
| ListReturn (out : list User)                   (* return users; runs RUnlock *)
| ListReturned (out : list User).

(** Where a goroutine stands in [Delete]. *)
Inductive DeletePC : Type :=
| DelLock                 (* s.mu.Lock(); defer s.mu.Unlock() *)
| DelTest                 (* if _, ok := s.users[id]; ok *)
| DelDelete               (* delete(s.users, id) *)
| DelReturn (b : bool)    (* return b; runs Unlock *)
| DelReturned (b : bool).

(** A goroutine that runs one call of one method. *)
Inductive Thread : Type :=
| TCreate (g : Concurrent.Goroutine)
| TGet (id : Z) (pc : GetPC)
| TList (pc : ListPC)
| TDelete (id : Z) (pc : DeletePC).

(** Whether the [range] loop has produced every key of the map. *)
Definition all_visited (m : gmap Z User) (visited : list Z) : bool :=
  forallb (fun kv => bool_decide (fst kv ∈ visited)) (map_to_list m).

(** One statement of one goroutine; [None] when it is blocked or has
    returned.  [choice] is the key the map iteration produces next, should
    the statement be one more round of the [range] loop: any key of the map
    that the loop has not produced yet. *)
Definition tstep (choice : Z) (sh : Concurrent.Shared) (t : Thread)
  : option (Concurrent.Shared * Thread) :=
  let s := Concurrent.guarded sh in
  let m := Concurrent.mu sh in
  match t with
  | TCreate g =>
      match Concurrent.gstep sh g with
      | Some (sh', g') => Some (sh', TCreate g')
      | None => None
      end
  | TGet id GetRLock =>
      match RLock m with
      | Some m' => Some (Concurrent.mkShared m' s, TGet id GetLookup)
      | None => None
      end
  | TGet id GetLookup =>
      Some (sh, TGet id (GetReturn (fst (fst (Get s id))) (snd (fst (Get s id)))))
  | TGet id (GetReturn user ok) =>
      match RUnlock m with
      | Some m' => Some (Concurrent.mkShared m' s, TGet id (GetReturned user ok))
      | None => None
      end
  | TGet _ (GetReturned _ _) => None
  | TList ListRLock =>
      match RLock m with
      | Some m' => Some (Concurrent.mkShared m' s, TList ListMake)
      | None => None
      end
  | TList ListMake => Some (sh, TList (ListLoop [] []))
  | TList (ListLoop visited out) =>
      if all_visited (users s) visited then Some (sh, TList (ListReturn out))
      else
        match users s !! choice with
        | Some u =>
            if bool_decide (choice ∈ visited) then None
            else Some (sh, TList (ListLoop (visited ++ [choice]) (out ++ [u])))
        | None => None
        end
  | TList (ListReturn out) =>
      match RUnlock m with
      | Some m' => Some (Concurrent.mkShared m' s, TList (ListReturned out))
      | None => None
      end
  | TList (ListReturned _) => None
  | TDelete id DelLock =>
      match Concurrent.Lock m with
      | Some m' => Some (Concurrent.mkShared m' s, TDelete id DelTest)
      | None => None
      end
  | TDelete id DelTest =>
      match users s !! id with
      | Some _ => Some (sh, TDelete id DelDelete)
      | None => Some (sh, TDelete id (DelReturn false))
      end
  | TDelete id DelDelete =>
      Some (Concurrent.mkShared m (mkStore (delete id (users s)) (next s)),
            TDelete id (DelReturn true))
  | TDelete id (DelReturn b) =>
      match Concurrent.Unlock m with
      | Some m' => Some (Concurrent.mkShared m' s, TDelete id (DelReturned b))
      | None => None
      end
  | TDelete _ (DelReturned _) => None
  end.

Definition Pool : Type := Concurrent.Shared * list Thread.

(** The scheduler lets goroutine number [i] run one statement. *)
Definition pool_step (ic : nat * Z) (cfg : Pool) : option Pool :=
  match snd cfg !! fst ic with
  | Some t =>
      match tstep (snd ic) (fst cfg) t with
      | Some (sh', t') => Some (sh', <[fst ic := t']> (snd cfg))
      | None => None
      end
  | None => None
  end.

(** An interleaving: the scheduler's choices of a goroutine, each with the
    key for the map iteration. *)
Fixpoint interleave (sched : list (nat * Z)) (cfg : Pool) : option Pool :=
  match sched with
  | [] => Some cfg
  | ic :: sched' =>
      match pool_step ic cfg with
      | Some cfg' => interleave sched' cfg'
      | None => None
      end
  end.

(** The goroutine that is about to make the call [c]. *)
Definition start (c : Call) : Thread :=
  match c with
  | CallCreate name email => TCreate (Concurrent.mkGoroutine name email Concurrent.AtLock)
  | CallGet id => TGet id GetRLock
  | CallList => TList ListRLock
  | CallDelete id => TDelete id DelLock
  end.

(** One goroutine per call, on a fresh store. *)
Definition spawn (calls : list Call) : Pool :=
  (Concurrent.mkShared (Concurrent.mkMutex false 0) NewUserStore, start <$> calls).

(** The call of a goroutine. *)
Definition call_of (t : Thread) : Call :=
  match t with
  | TCreate g => CallCreate (Concurrent.arg_name g) (Concurrent.arg_email g)
  | TGet id _ => CallGet id
  | TList _ => CallList
  | TDelete id _ => CallDelete id
  end.

(** What a goroutine that has returned got from its call. *)
Definition outcome (t : Thread) : option Ret :=
  match t with
  | TCreate g =>
      match Concurrent.pc g with Concurrent.Returned u => Some (RetUser u) | _ => None end
  | TGet _ (GetReturned u ok) => Some (RetGet u ok)
  | TList (ListReturned out) => Some (RetList out)
  | TDelete _ (DelReturned b) => Some (RetBool b)
  | _ => None
  end.

Definition is_done (t : Thread) : bool :=
  match outcome t with Some _ => true | None => false end.

Definition all_done (cfg : Pool) : bool := forallb is_done (snd cfg).

(** The calls of the goroutines that have returned, each with its result. *)
Definition outcomes (cfg : Pool) : list (Call * Ret) :=
  omap (fun t => match outcome t with
                 | Some r => Some (call_of t, r)
                 | None => None
                 end) (snd cfg).

(** The calls that change the store. *)
Definition is_update (cr : Call * Ret) : bool :=
  match fst cr with
  | CallCreate _ _ | CallDelete _ => true
  | CallGet _ | CallList => false
  end.

(** Holding the write lock. *)
Definition writing (t : Thread) : bool :=
  match t with
  | TCreate g => Concurrent.in_cs g
  | TDelete _ (DelTest | DelDelete | DelReturn _) => true
  | _ => false
  end.

(** Holding the read lock. *)
Definition reading (t : Thread) : bool :=
  match t with
  | TGet _ (GetLookup | GetReturn _ _) => true
  | TList (ListMake | ListLoop _ _ | ListReturn _) => true
  | _ => false
  end.

(** What is left of the call of a goroutine that holds the write lock, as an
    update of the guarded data. *)
Definition roll_forward (t : Thread) (s : UserStore) : UserStore :=
  match t with
  | TCreate g => Concurrent.finish g s
  | TDelete id DelTest => snd (Delete s id)
  | TDelete id DelDelete => mkStore (delete id (users s)) (next s)
  | _ => s
  end.

Definition rolled_forward (cfg : Pool) : UserStore :=
  foldr roll_forward (Concurrent.guarded (fst cfg)) (snd cfg).

(** The call of a goroutine whose effect is fixed, with its result. *)
Definition fixed_call (s : UserStore) (t : Thread) : option (Call * Ret) :=
  match t with
  | TCreate g =>
      match Concurrent.pc g with
      | Concurrent.AtLock => None
      | Concurrent.AtBuild =>
          Some (call_of t,
                RetUser (mkUser (next s) (Concurrent.arg_name g) (Concurrent.arg_email g)))
      | Concurrent.AtStore u | Concurrent.AtIncr u
      | Concurrent.AtReturn u | Concurrent.Returned u => Some (call_of t, RetUser u)
      end
  | TGet id (GetReturn u ok | GetReturned u ok) => Some (call_of t, RetGet u ok)
  | TList (ListReturn out | ListReturned out) => Some (call_of t, RetList out)
  | TDelete id DelTest => Some (call_of t, RetBool (fst (Delete s id)))
  | TDelete id DelDelete => Some (call_of t, RetBool true)
  | TDelete id (DelReturn b | DelReturned b) => Some (call_of t, RetBool b)
  | _ => None
  end.

(** What a goroutine's local variables have to do with the guarded data. *)
Definition coherent (s : UserStore) (t : Thread) : Prop :=
  match t with
  | TCreate g =>
      forall u, Concurrent.pc g = Concurrent.AtStore u ->
        u = mkUser (next s) (Concurrent.arg_name g) (Concurrent.arg_email g)
  | TList (ListLoop visited out) =>
      NoDup visited /\ Forall2 (fun k u => users s !! k = Some u) visited out
  | _ => True
  end.

(** The invariant of every run: the mutex counts the goroutines that hold
    it, a writer holds it alone, and [h] makes the calls whose effect is
    fixed one after the other, from a fresh store to the settled data. *)
Definition serialized (h : History) (cfg : Pool) : Prop :=
  let m := Concurrent.mu (fst cfg) in
  Concurrent.readers m = length (List.filter reading (snd cfg)) /\
  length (List.filter writing (snd cfg)) = (if Concurrent.writer m then 1 else 0)%nat /\
  (Concurrent.writer m = true -> Concurrent.readers m = O) /\
  Forall (coherent (Concurrent.guarded (fst cfg))) (snd cfg) /\
  exec NewUserStore h (rolled_forward cfg) /\
  h ≡ₚ omap (fixed_call (Concurrent.guarded (fst cfg))) (snd cfg).

(** Not yet through its [Lock] or [RLock]. *)
Definition waiting (t : Thread) : bool :=
  match t with
  | TCreate g => match Concurrent.pc g with Concurrent.AtLock => true | _ => false end
  | TGet _ GetRLock | TList ListRLock | TDelete _ DelLock => true
  | _ => false
  end.

(** A bound on the statements a goroutine still has to run, among [n]
    goroutines: the [range] loop makes at most [n] rounds, for at most [n]
    records are ever created. *)
Definition statements_left (n : nat) (t : Thread) : nat :=
  match t with
  | TCreate g => Concurrent.remaining g
  | TGet _ GetRLock => 3
  | TGet _ GetLookup => 2
  | TGet _ (GetReturn _ _) => 1
  | TGet _ (GetReturned _ _) => 0
  | TList ListRLock => n + 4
  | TList ListMake => n + 3
  | TList (ListLoop visited _) => n - length visited + 2
  | TList (ListReturn _) => 1
  | TList (ListReturned _) => 0
  | TDelete _ DelLock => 4
  | TDelete _ DelTest => 3
  | TDelete _ DelDelete => 2
  | TDelete _ (DelReturn _) => 1
  | TDelete _ (DelReturned _) => 0
  end%nat.

Definition total_left (cfg : Pool) : nat :=
  sum_list (statements_left (length (snd cfg)) <$> snd cfg).

End Goroutines.

(** Unfolds the [int] constants to numerals, for [lia]. *)
Ltac int_consts :=
  unfold GoInt.in_range, GoInt.incr, GoInt.wrap, GoInt.MinInt, GoInt.MaxInt,
    GoInt.intSize in *;
  change (2 ^ 64) with 18446744073709551616 in *;
  change (2 ^ (64 - 1)) with 9223372036854775808 in *.

(** A step that leaves the history as it is. *)
Ltac same_history :=
  let Hex := fresh "Hex" in
  intros Hex; eexists; split; [reflexivity|]; split; [exact Hex | intros ? ? HP; exact HP].

(** ** Properties of [int] arithmetic *)

Lemma wrap_in_range z : GoInt.in_range (GoInt.wrap z).
Proof.
  int_consts.
  pose proof (Z.mod_pos_bound (z + 9223372036854775808) 18446744073709551616
                ltac:(lia)).
  lia.
Qed.

Lemma wrap_id z : GoInt.in_range z -> GoInt.wrap z = z.
Proof. int_consts. intros Hz. rewrite Z.mod_small; lia. Qed.

Lemma wrap_add_l x y : GoInt.wrap (GoInt.wrap x + y) = GoInt.wrap (x + y).
Proof.
  int_consts. f_equal.
  replace ((x + 9223372036854775808) `mod` 18446744073709551616
           - 9223372036854775808 + y + 9223372036854775808)
    with ((x + 9223372036854775808) `mod` 18446744073709551616 + y) by lia.
  rewrite Zplus_mod_idemp_l. f_equal. lia.
Qed.

Lemma wrap_eq x y :
  GoInt.wrap x = GoInt.wrap y -> exists k, x - y = k * 2 ^ GoInt.intSize.
Proof.
  intros H. int_consts.
  pose proof (Z.div_mod (x + 9223372036854775808) 18446744073709551616 ltac:(lia)) as Hx.
  pose proof (Z.div_mod (y + 9223372036854775808) 18446744073709551616 ltac:(lia)) as Hy.
  exists ((x + 9223372036854775808) `div` 18446744073709551616
          - (y + 9223372036854775808) `div` 18446744073709551616).
  lia.
Qed.

(** [wrap] is injective on every window narrower than [2^64]. *)
Lemma wrap_inj x y :
  GoInt.wrap x = GoInt.wrap y ->
  - 2 ^ GoInt.intSize < x - y < 2 ^ GoInt.intSize ->
  x = y.
Proof.
  intros Heq Hwin. apply wrap_eq in Heq as [k Hk].
  assert (H64 : 0 < 2 ^ GoInt.intSize) by reflexivity.
  set (P := 2 ^ GoInt.intSize) in *.
  destruct (Z.eq_dec k 0) as [->|Hk0]; [lia|].
  destruct (Z_le_gt_dec k 0) as [Hneg|Hpos].
  - pose proof (Z.mul_le_mono_nonneg_r k (-1) P ltac:(lia) ltac:(lia)). lia.
  - pose proof (Z.mul_le_mono_nonneg_r 1 k P ltac:(lia) ltac:(lia)). lia.
Qed.

Lemma incr_below_max x : GoInt.in_range x -> x <> GoInt.MaxInt -> GoInt.incr x = x + 1.
Proof.
  intros Hx Hne. unfold GoInt.incr. apply wrap_id.
  unfold GoInt.in_range in *. lia.
Qed.

Lemma incr_MaxInt : GoInt.incr GoInt.MaxInt = GoInt.MinInt.
Proof. reflexivity. Qed.

(** ** Single calls *)

(** Claim C1, as amended: in every store state [Create] returns the record
    with [ID = next] and the given name and email and stores it under that
    id; and in every state whose [next] is an [int] other than the largest
    one it advances [next] by exactly 1. *)
Theorem Create_spec (s : UserStore) (name email : string) :
  create_result s name email /\
  (GoInt.in_range (next s) -> next s <> GoInt.MaxInt -> create_post s name email).
Proof.
  assert (Hres : create_result s name email).
  { unfold create_result, Create. simpl. repeat split; reflexivity. }
  split; [exact Hres|].
  intros Hr Hmax. split; [exact Hres|].
  unfold Create. simpl. now apply incr_below_max.
Qed.

Lemma Create_spec_witness :
  GoInt.in_range (next NewUserStore) /\ next NewUserStore <> GoInt.MaxInt /\
  create_post NewUserStore "Alice" "a@x.com".
Proof.
  assert (Hr : GoInt.in_range (next NewUserStore)) by (split; discriminate).
  assert (Hm : next NewUserStore <> GoInt.MaxInt) by discriminate.
  split; [exact Hr|]. split; [exact Hm|].
  exact (proj2 (Create_spec NewUserStore "Alice" "a@x.com") Hr Hm).
Defined.

(** Claim C1 as stated fails where the counter holds the largest [int]: the
    increment wraps around to the smallest one. *)
Lemma Create_at_MaxInt : ~ create_post (mkStore ∅ GoInt.MaxInt) "" "".
Proof.
  unfold create_post. simpl. intros [_ H].
  vm_compute in H. discriminate.
Qed.

(** At the largest [int] the rest of [Create]'s contract still holds. *)
Lemma Create_wraps (s : UserStore) (name email : string) :
  next s = GoInt.MaxInt ->
  fst (Create s name email) = mkUser GoInt.MaxInt name email /\
  users (snd (Create s name email)) !! GoInt.MaxInt = Some (mkUser GoInt.MaxInt name email) /\
  next (snd (Create s name email)) = GoInt.MinInt.
Proof.
  intros H. unfold Create. simpl. rewrite H.
  split; [reflexivity|]. split; [apply lookup_insert_eq | apply incr_MaxInt].
Qed.

(** Claim C3: [Delete] returns [true] and removes the record exactly when the
    id is present, and [false] otherwise; a second [Delete] of the same id
    right after returns [false], so a present id yields [true] then [false]. *)
Theorem Delete_spec (s : UserStore) (id : Z) : delete_post s id.
Proof.
  unfold delete_post, Delete.
  destruct (users s !! id) as [u|] eqn:E; simpl.
  - rewrite lookup_delete_eq. simpl.
    repeat split; eauto; discriminate.
  - rewrite E. simpl.
    assert (Hno : ~ is_Some (@None User)) by (intros [? ?]; discriminate).
    repeat split; eauto; try discriminate; intros; contradiction.
Qed.

(** Claim C4: [Get] returns the stored record with [ok = true] exactly when
    the id is present, the zero record with [ok = false] otherwise, and the
    store (mapping and counter) is the same afterwards. *)
Theorem Get_spec (s : UserStore) (id : Z) : get_post s id.
Proof.
  unfold get_post, Get.
  destruct (users s !! id) as [u|] eqn:E; simpl.
  - repeat split; eauto; try discriminate. intros ? [= ->]. reflexivity.
  - repeat split; try discriminate. intros [? ?]; discriminate.
Qed.

(** Claim C5: the record that [Create] returns is what [Get] of its id
    returns in the state [Create] leaves. *)
Theorem Get_after_Create (s : UserStore) (name email : string) :
  let u := fst (Create s name email) in
  let s' := snd (Create s name email) in
  fst (Get s' (ID u)) = (u, true) /\
  ID u = next s /\ Name u = name /\ Email u = email.
Proof.
  unfold Create, Get. simpl. rewrite lookup_insert_eq. auto.
Qed.

(** Claim C9: [Delete] of an id that is not in the mapping returns [false]
    and leaves the whole store as it was. *)
Theorem Delete_absent (s : UserStore) (id : Z) :
  users s !! id = None -> Delete s id = (false, s).
Proof. intros E. unfold Delete. now rewrite E. Qed.

Lemma Delete_absent_witness :
  Delete (snd (Create NewUserStore "Alice" "a@x.com")) 7
  = (false, snd (Create NewUserStore "Alice" "a@x.com")).
Proof.
  apply (Delete_absent (snd (Create NewUserStore "Alice" "a@x.com")) 7).
  vm_compute. reflexivity.
Defined.

(** ** Histories *)

Lemma creates_snoc h cr :
  creates (h ++ [cr]) = (creates h + (if is_create cr then 1 else 0))%nat.
Proof.
  unfold creates. rewrite List.filter_app, length_app. simpl.
  destruct (is_create cr); reflexivity.
Qed.

Lemma deletes_ok_snoc h cr :
  deletes_ok (h ++ [cr]) = (deletes_ok h + (if is_delete_ok cr then 1 else 0))%nat.
Proof.
  unfold deletes_ok. rewrite List.filter_app, length_app. simpl.
  destruct (is_delete_ok cr); reflexivity.
Qed.

Lemma issued_app h1 h2 : issued (h1 ++ h2) = issued h1 ++ issued h2.
Proof. unfold issued. apply omap_app. Qed.

Lemma exec_app s h1 s1 h2 s2 :
  exec s h1 s1 -> exec s1 h2 s2 -> exec s (h1 ++ h2) s2.
Proof.
  intros H1 H2. induction H2 as [|h s' c r s'' _ IH Hstep].
  - now rewrite app_nil_r.
  - rewrite app_assoc. econstructor; eassumption.
Qed.

Lemma exec_cons s c r s1 h s2 :
  step s c r s1 -> exec s1 h s2 -> exec s ((c, r) :: h) s2.
Proof.
  intros Hs He. change ((c, r) :: h) with ([(c, r)] ++ h).
  eapply exec_app; [|eassumption].
  change [(c, r)] with ([] ++ [(c, r)]). econstructor; [constructor|eassumption].
Qed.

Lemma step_call s c : step s c (fst (call s c)) (snd (call s c)).
Proof.
  destruct c; simpl; try constructor.
  unfold range_order. reflexivity.
Qed.

(** [run] produces a history of the store. *)
Lemma exec_run cs : forall s, exec s (fst (run s cs)) (snd (run s cs)).
Proof.
  induction cs as [|c cs IH]; intros s; simpl.
  - constructor.
  - eapply exec_cons; [apply step_call | apply IH].
Qed.

(** A prefix of a history of the store is a history of the store. *)
Lemma exec_prefix s h1 h2 s2 :
  exec s (h1 ++ h2) s2 -> exists s1, exec s h1 s1 /\ exec s1 h2 s2.
Proof.
  revert s2. induction h2 as [|x h2 IH] using rev_ind; intros s2 H.
  - rewrite app_nil_r in H. exists s2. split; [assumption|constructor].
  - rewrite app_assoc in H. inversion H as [E|h s1 c r s2' He Hs E].
    + apply (f_equal length) in E. rewrite length_app in E. simpl in E. lia.
    + apply app_inj_tail in E as [-> <-].
      destruct (IH _ He) as (s0 & Ha & Hb).
      exists s0. split; [assumption|]. econstructor; eassumption.
Qed.

(** The shape of every history of a fresh store: the counter and the ids
    handed out are determined by the number of [Create] calls, and every
    record of the mapping sits under its own [ID], which was handed out. *)
Lemma exec_fresh_shape h s :
  exec NewUserStore h s ->
  next s = GoInt.wrap (1 + Z.of_nat (creates h)) /\
  issued h = GoInt.wrap <$> seqZ 1 (Z.of_nat (creates h)) /\
  (forall id u, users s !! id = Some u -> ID u = id /\ id ∈ issued h).
Proof.
  induction 1 as [|h s1 c r s2 He (IHn & IHi & IHu) Hstep].
  - simpl. split; [reflexivity|]. split; [reflexivity|].
    intros id u Hl. rewrite lookup_empty in Hl. discriminate.
  - rewrite creates_snoc, issued_app.
    inversion Hstep; subst; simpl; rewrite ?Nat.add_0_r, ?app_nil_r.
    + (* Create *)
      replace (creates h + 1)%nat with (S (creates h)) by lia.
      split; [|split].
      * unfold GoInt.incr. rewrite IHn, wrap_add_l. f_equal. lia.
      * rewrite seqZ_S, fmap_app, <- IHi, IHn. reflexivity.
      * intros id u Hl. rewrite elem_of_app.
        destruct (decide (next s1 = id)) as [<-|Hne].
        -- rewrite lookup_insert_eq in Hl. injection Hl as <-. simpl.
           split; [reflexivity|]. right. apply list_elem_of_singleton. reflexivity.
        -- rewrite lookup_insert_ne in Hl by assumption.
           destruct (IHu _ _ Hl). auto.
    + (* Get *)
      unfold Get. destruct (users s1 !! id); simpl; auto.
    + (* List *) auto.
    + (* Delete *)
      unfold Delete. destruct (users s1 !! id) as [u0|] eqn:E; simpl; auto.
      split; [assumption|]. split; [assumption|].
      intros id' u Hl. rewrite lookup_delete_Some in Hl. destruct Hl as [_ Hl]. eauto.
Qed.

Lemma wrap_seqZ (c : Z) :
  c <= GoInt.MaxInt -> GoInt.wrap <$> seqZ 1 c = seqZ 1 c.
Proof.
  intros Hc. rewrite <- (list_fmap_id (seqZ 1 c)) at 2.
  apply list_fmap_ext. intros i x Hx.
  apply lookup_seqZ in Hx as [-> Hi]. apply wrap_id.
  unfold GoInt.in_range.
  assert (GoInt.MinInt < 0) by reflexivity. unfold id. lia.
Qed.

(** While fewer than [MaxInt] records were created, the counter has not
    wrapped: it is one more than the number of [Create] calls, and the ids
    handed out are [1, 2, ..., creates h]. *)
Lemma exec_fresh_small h s :
  exec NewUserStore h s ->
  Z.of_nat (creates h) < GoInt.MaxInt ->
  next s = 1 + Z.of_nat (creates h) /\
  issued h = seqZ 1 (Z.of_nat (creates h)) /\
  (forall id u, users s !! id = Some u -> ID u = id /\ 1 <= id < next s).
Proof.
  intros He Hc. destruct (exec_fresh_shape h s He) as (Hn & Hi & Hu).
  rewrite wrap_seqZ in Hi by lia.
  assert (Hn' : next s = 1 + Z.of_nat (creates h)).
  { rewrite Hn. apply wrap_id. unfold GoInt.in_range.
    assert (GoInt.MinInt < 0) by reflexivity. lia. }
  split; [assumption|]. split; [assumption|].
  intros id u Hl. destruct (Hu _ _ Hl) as [HID Hin].
  split; [assumption|]. rewrite Hi in Hin. apply elem_of_seqZ in Hin. lia.
Qed.

Lemma exec_cons_inv s c r h s2 :
  exec s ((c, r) :: h) s2 -> exists s1, step s c r s1 /\ exec s1 h s2.
Proof.
  intros H. change ((c, r) :: h) with ([(c, r)] ++ h) in H.
  apply exec_prefix in H as (s1 & H1 & H2). exists s1. split; [|assumption].
  inversion H1 as [E|h' s' c' r' s'' He Hs E].
  destruct h' as [|x h'].
  - simpl in E. injection E as -> ->. inversion He; subst; [assumption|].
    match goal with H : _ ++ [_] = [] |- _ => apply app_eq_nil in H as [_ H]; discriminate end.
  - apply (f_equal length) in E. simpl in E. rewrite length_app in E. simpl in E. lia.
Qed.

Lemma step_delete_inv s id r s' :
  step s (CallDelete id) r s' ->
  r = RetBool (fst (Delete s id)) /\ s' = snd (Delete s id).
Proof. inversion 1; subst; auto. Qed.

Lemma step_create_inv s name email r s' :
  step s (CallCreate name email) r s' ->
  r = RetUser (fst (Create s name email)) /\ s' = snd (Create s name email).
Proof. inversion 1; subst; auto. Qed.

Lemma step_list_inv s r s' :
  step s CallList r s' ->
  exists entries, range_order (users s) entries /\
                  r = RetList (List_loop entries) /\ s' = s.
Proof. inversion 1; subst; eauto. Qed.

Lemma Delete_true_present s id : fst (Delete s id) = true -> is_Some (users s !! id).
Proof. unfold Delete. destruct (users s !! id); [eauto|discriminate]. Qed.

(** Claim C2, as amended: along every history of a fresh store with fewer
    than [MaxInt] (2^63 - 1) [Create] calls, [next] is above every id handed
    out, the ids are handed out in strictly increasing order without
    repetition, and an id that [Delete] removed is not handed out again. *)
Theorem ids_fresh_below_MaxInt (h : History) (s : UserStore) :
  exec NewUserStore h s ->
  Z.of_nat (creates h) < GoInt.MaxInt ->
  ids_fresh h s.
Proof.
  intros He Hc. destruct (exec_fresh_small h s He Hc) as (Hn & Hi & Hu).
  assert (Hnd : NoDup (issued h)) by (rewrite Hi; apply NoDup_seqZ).
  unfold ids_fresh. split; [|split; [|split]].
  - intros id Hin. rewrite Hi in Hin. apply elem_of_seqZ in Hin. lia.
  - intros i j a b Ha Hb Hij. rewrite Hi in Ha, Hb.
    apply lookup_seqZ in Ha as [-> _]. apply lookup_seqZ in Hb as [-> _]. lia.
  - assumption.
  - intros h1 id h2 ->.
    apply exec_prefix in He as (s1 & He1 & He2).
    apply exec_cons_inv in He2 as (s1' & Hstep & _).
    apply step_delete_inv in Hstep as [[= E3] _].
    symmetry in E3. apply Delete_true_present in E3 as [u Hu1].
    destruct (exec_fresh_shape _ _ He1) as (_ & _ & Hu1').
    destruct (Hu1' _ _ Hu1) as [_ Hin1].
    rewrite issued_app in Hnd. apply NoDup_app in Hnd as (_ & Hdis & _).
    intros Hin2. apply (Hdis id Hin1). simpl. exact Hin2.
Qed.

(** Claim C10, as amended: in every state reachable from a fresh store
    every record sits under the key that is its [ID]; and when the history
    has fewer than [MaxInt] (2^63 - 1) [Create] calls, every key of the
    mapping is at least 1 and below [next], so [Get] and [Delete] find
    nothing at an id that is not positive. *)
Theorem store_inv_below_MaxInt (h : History) (s : UserStore) :
  exec NewUserStore h s ->
  (forall id u, users s !! id = Some u -> ID u = id) /\
  (Z.of_nat (creates h) < GoInt.MaxInt -> store_inv s).
Proof.
  intros He. split.
  { intros id u Hl. destruct (exec_fresh_shape h s He) as (_ & _ & Hu).
    now destruct (Hu _ _ Hl). }
  intros Hc. destruct (exec_fresh_small h s He Hc) as (Hn & Hi & Hu).
  assert (Hnone : forall id, id <= 0 -> users s !! id = None).
  { intros id Hid. destruct (users s !! id) as [u|] eqn:E; [|reflexivity].
    destruct (Hu _ _ E). lia. }
  split.
  - intros id u Hl. destruct (Hu _ _ Hl). auto.
  - intros id Hid. unfold Get, Delete. rewrite (Hnone id Hid). auto.
Qed.

(** ** [List] *)

Lemma List_loop_snoc entries kv :
  List_loop (entries ++ [kv]) = List_loop entries ++ [snd kv].
Proof. unfold List_loop. now rewrite foldl_app. Qed.

(** The loop collects the values of the entries it visits, in that order. *)
Lemma List_loop_values entries : List_loop entries = snd <$> entries.
Proof.
  induction entries as [|kv entries IH] using rev_ind; [reflexivity|].
  now rewrite List_loop_snoc, IH, fmap_app.
Qed.

Lemma List_snapshot_always (s : UserStore) : list_snapshot s.
Proof.
  split.
  - eexists. apply (step_list s (map_to_list (users s))).
    unfold range_order. reflexivity.
  - intros r s' Hstep.
    apply step_list_inv in Hstep as (entries & Hperm & -> & ->).
    exists (List_loop entries). rewrite List_loop_values.
    unfold range_order in Hperm.
    split; [reflexivity|]. split; [reflexivity|]. split.
    + now rewrite Hperm.
    + intros u. rewrite Hperm, list_elem_of_fmap. split.
      * intros ([id u'] & -> & Hin). exists id.
        now apply elem_of_map_to_list in Hin.
      * intros (id & Hl). exists (id, u). split; [reflexivity|].
        now apply elem_of_map_to_list.
Qed.

Lemma List_length s l s' :
  step s CallList (RetList l) s' -> length l = size (users s).
Proof.
  intros Hstep. apply step_list_inv in Hstep as (entries & Hperm & [= ->] & _).
  rewrite List_loop_values, length_fmap. unfold range_order in Hperm.
  rewrite Hperm. apply length_map_to_list.
Qed.

(** A [Create] on a fresh store's history stores under a key that is not
    in the mapping, as long as the counter has not gone round all of [int]. *)
Lemma next_unused h s :
  exec NewUserStore h s ->
  Z.of_nat (creates h) < 2 ^ GoInt.intSize ->
  users s !! next s = None.
Proof.
  intros He Hc. destruct (exec_fresh_shape h s He) as (Hn & Hi & Hu).
  destruct (users s !! next s) as [u|] eqn:E; [|reflexivity]. exfalso.
  destruct (Hu _ _ E) as [_ Hin]. rewrite Hi in Hin.
  apply list_elem_of_fmap in Hin as (j & Hj & Hin).
  apply elem_of_seqZ in Hin. rewrite Hn in Hj.
  assert (H64 : 0 < 2 ^ GoInt.intSize) by reflexivity.
  apply wrap_inj in Hj; lia.
Qed.

(** The size of the mapping after a history of a fresh store with at most
    2^64 [Create] calls. *)
Lemma size_users h s :
  exec NewUserStore h s ->
  Z.of_nat (creates h) <= 2 ^ GoInt.intSize ->
  (size (users s) + deletes_ok h = creates h)%nat.
Proof.
  induction 1 as [|h s1 c r s2 He IH Hstep]; [reflexivity|].
  rewrite creates_snoc, deletes_ok_snoc. intros Hc.
  inversion Hstep; subst; unfold is_create, is_delete_ok in *; simpl in Hc |- *.
  - (* Create *)
    rewrite map_size_insert_None by (eapply next_unused; [eassumption|lia]).
    specialize (IH ltac:(lia)). lia.
  - (* Get *)
    specialize (IH ltac:(lia)).
    unfold Get. destruct (users s1 !! id); simpl; lia.
  - (* List *)
    specialize (IH ltac:(lia)). lia.
  - (* Delete *)
    specialize (IH ltac:(lia)). unfold Delete.
    destruct (users s1 !! id) as [u|] eqn:E; simpl.
    + assert (Hs : size (users s1) = S (size (delete id (users s1)))).
      { rewrite <- (insert_id (users s1) id u E) at 1.
        rewrite <- insert_delete_eq.
        apply map_size_insert_None, lookup_delete_eq. }
      lia.
    + lia.
Qed.

(** Claim C6, as amended: in every store state [List] returns exactly the
    records of the mapping in some order (none that is absent, all that are
    present) and changes nothing; and after a history of a fresh store with
    at most 2^64 [Create] calls its length is the number of [Create] calls
    minus the number of [Delete] calls that returned [true]. *)
Theorem List_spec :
  (forall s, list_snapshot s) /\
  (forall h s, exec NewUserStore h s ->
               Z.of_nat (creates h) <= 2 ^ GoInt.intSize ->
               list_length h s).
Proof.
  split; [apply List_snapshot_always|].
  intros h s He Hc l s' Hstep.
  rewrite (List_length _ _ _ Hstep).
  pose proof (size_users h s He Hc). lia.
Qed.

(** ** Creating until the counter wraps *)

Lemma wrap_not_first k :
  0 <= k <= 2 ^ GoInt.intSize - 2 -> GoInt.wrap (2 + k) <> 1.
Proof.
  intros Hk Heq. change 1 with (GoInt.wrap 1) in Heq.
  assert (H64 : 0 < 2 ^ GoInt.intSize) by reflexivity.
  apply wrap_inj in Heq; lia.
Qed.

Lemma exec_churn r :
  Z.of_nat r <= 2 ^ GoInt.intSize - 1 ->
  exec NewUserStore (churn_history r) (churn_state r).
Proof.
  induction r as [|r IH]; intros Hr.
  - change (churn_history 0) with ([] ++ [(CallCreate "" "", RetUser first_user)]).
    econstructor; [constructor|].
    apply (step_create NewUserStore "" "").
  - specialize (IH ltac:(lia)).
    assert (Hne : GoInt.wrap (2 + Z.of_nat r) <> 1) by (apply wrap_not_first; lia).
    cbn [churn_history].
    change [?a; ?b] with ([a] ++ [b]). rewrite app_assoc.
    econstructor; [econstructor; [exact IH|]|].
    + apply (step_create (churn_state r) "" "").
    + match goal with |- step ?s _ _ _ => set (s1 := s) end.
      assert (Hdel : Delete s1 (GoInt.wrap (2 + Z.of_nat r))
                     = (true, churn_state (S r))).
      { subst s1. unfold Delete, Create, churn_state. cbn [fst snd users next].
        rewrite lookup_insert_eq. cbn [fst snd users next].
        rewrite delete_insert_eq, delete_singleton_ne by congruence.
        unfold GoInt.incr. rewrite wrap_add_l.
        do 3 f_equal. lia. }
      pose proof (step_delete s1 (GoInt.wrap (2 + Z.of_nat r))) as Hs.
      rewrite Hdel in Hs. exact Hs.
Qed.

Lemma creates_churn r : creates (churn_history r) = S r.
Proof.
  induction r as [|r IH]; [reflexivity|].
  cbn [churn_history]. unfold creates in *.
  rewrite List.filter_app, length_app, IH. simpl. lia.
Qed.

Lemma deletes_ok_churn r : deletes_ok (churn_history r) = r.
Proof.
  induction r as [|r IH]; [reflexivity|].
  cbn [churn_history]. unfold deletes_ok in *.
  rewrite List.filter_app, length_app, IH. simpl. lia.
Qed.

Lemma first_issued r : 1 ∈ issued (churn_history r).
Proof.
  induction r as [|r IH]; [left|].
  cbn [churn_history]. rewrite issued_app. apply elem_of_app. now left.
Qed.

Lemma churn_state_at r n :
  GoInt.wrap (2 + Z.of_nat r) = n ->
  churn_state r = mkStore {[1 := first_user]} n.
Proof. intros <-. reflexivity. Qed.

Lemma ids_not_fresh_at r :
  ~ ids_fresh (churn_history r) (mkStore {[1 := first_user]} GoInt.MinInt).
Proof.
  intros (Hlt & _). specialize (Hlt 1 (first_issued r)).
  cbn [next] in Hlt. vm_compute in Hlt. discriminate.
Qed.

(** Claim C2 as stated fails on a history with [MaxInt] calls of [Create]
    (the first record is kept, every later one is deleted right after it is
    created): the last [Create] hands out [MaxInt] and the counter wraps to
    [MinInt], below every id handed out. *)
Lemma ids_not_fresh_after_MaxInt_creates :
  exec NewUserStore (churn_history (Z.to_nat (GoInt.MaxInt - 1)))
       (mkStore {[1 := first_user]} GoInt.MinInt) /\
  ~ ids_fresh (churn_history (Z.to_nat (GoInt.MaxInt - 1)))
      (mkStore {[1 := first_user]} GoInt.MinInt).
Proof.
  assert (Hr : Z.of_nat (Z.to_nat (GoInt.MaxInt - 1)) = GoInt.MaxInt - 1)
    by (apply Z2Nat.id; discriminate).
  split.
  - rewrite <- (churn_state_at (Z.to_nat (GoInt.MaxInt - 1))) by now rewrite Hr.
    apply exec_churn. rewrite Hr. discriminate.
  - apply ids_not_fresh_at.
Qed.

(** Claim C10 as stated fails in the state the same history leads to: key 1
    is in the mapping and [next] is [MinInt]. *)
Lemma store_inv_fails_after_MaxInt_creates :
  reachable (mkStore {[1 := first_user]} GoInt.MinInt) /\
  ~ store_inv (mkStore {[1 := first_user]} GoInt.MinInt).
Proof.
  assert (Hr : Z.of_nat (Z.to_nat (GoInt.MaxInt - 1)) = GoInt.MaxInt - 1)
    by (apply Z2Nat.id; discriminate).
  split.
  - exists (churn_history (Z.to_nat (GoInt.MaxInt - 1))).
    rewrite <- (churn_state_at (Z.to_nat (GoInt.MaxInt - 1))) by now rewrite Hr.
    apply exec_churn. rewrite Hr. discriminate.
  - intros (Hkeys & _).
    destruct (Hkeys 1 first_user) as [[_ Hlt] _]; [apply lookup_singleton_eq|].
    cbn [next] in Hlt. vm_compute in Hlt. discriminate.
Qed.

Lemma exec_churn_again r :
  Z.of_nat r = 2 ^ GoInt.intSize - 1 ->
  exec NewUserStore (churn_history r ++ [(CallCreate "" "", RetUser first_user)])
       (mkStore {[1 := first_user]} 2).
Proof.
  intros Hr.
  assert (Hs : churn_state r = mkStore {[1 := first_user]} 1).
  { apply churn_state_at. rewrite Hr. reflexivity. }
  econstructor; [apply exec_churn; lia|]. rewrite Hs.
  pose proof (step_create (mkStore {[1 := first_user]} 1) "" "") as Hstep.
  unfold Create in Hstep. cbn [fst snd users next] in Hstep.
  rewrite insert_singleton_eq in Hstep. exact Hstep.
Qed.

Lemma list_length_fails_at r :
  Z.of_nat r = 2 ^ GoInt.intSize - 1 ->
  ~ list_length (churn_history r ++ [(CallCreate "" "", RetUser first_user)])
      (mkStore {[1 := first_user]} 2).
Proof.
  intros Hr Hlen.
  destruct (List_snapshot_always (mkStore {[1 := first_user]} 2)) as [[l Hl] _].
  specialize (Hlen l _ Hl). rewrite (List_length _ _ _ Hl) in Hlen.
  rewrite creates_snoc, deletes_ok_snoc, creates_churn, deletes_ok_churn in Hlen.
  cbn [users] in Hlen. rewrite map_size_singleton in Hlen.
  unfold is_create, is_delete_ok in Hlen. simpl in Hlen. lia.
Qed.

(** Claim C6 as stated fails on a history with 2^64 + 1 calls of [Create]
    (the first record is kept, every later one but the last is deleted right
    after it is created): the last [Create] is handed id 1 again and
    overwrites the first record, so [List] returns one record where the
    calls of [Create] outnumber the successful calls of [Delete] by two. *)
Lemma list_length_fails_after_wrap :
  exec NewUserStore
    (churn_history (Z.to_nat (2 ^ GoInt.intSize - 1))
       ++ [(CallCreate "" "", RetUser first_user)])
    (mkStore {[1 := first_user]} 2) /\
  ~ list_length
      (churn_history (Z.to_nat (2 ^ GoInt.intSize - 1))
         ++ [(CallCreate "" "", RetUser first_user)])
      (mkStore {[1 := first_user]} 2).
Proof.
  assert (Hr : Z.of_nat (Z.to_nat (2 ^ GoInt.intSize - 1)) = 2 ^ GoInt.intSize - 1)
    by (apply Z2Nat.id; discriminate).
  split; [now apply exec_churn_again | now apply list_length_fails_at].
Qed.

Lemma ids_fresh_below_MaxInt_witness :
  let r := run NewUserStore
             [CallCreate "Alice" "a@x.com"; CallDelete 1; CallCreate "Bob" "b@x.com";
              CallList; CallGet 2] in
  exec NewUserStore (fst r) (snd r) /\
  Z.of_nat (creates (fst r)) < GoInt.MaxInt /\ ids_fresh (fst r) (snd r).
Proof.
  intros r. split; [apply exec_run|]. split; [reflexivity|].
  apply (ids_fresh_below_MaxInt (fst r) (snd r)); [apply exec_run|reflexivity].
Defined.

Lemma store_inv_below_MaxInt_witness :
  let r := run NewUserStore
             [CallCreate "Alice" "a@x.com"; CallCreate "Bob" "b@x.com"; CallDelete 1] in
  exec NewUserStore (fst r) (snd r) /\
  Z.of_nat (creates (fst r)) < GoInt.MaxInt /\ store_inv (snd r).
Proof.
  intros r. split; [apply exec_run|]. split; [reflexivity|].
  apply (proj2 (store_inv_below_MaxInt (fst r) (snd r) (exec_run _ _))).
  reflexivity.
Defined.

Lemma List_spec_witness :
  let r := run NewUserStore
             [CallCreate "Alice" "a@x.com"; CallCreate "Bob" "b@x.com"; CallDelete 1;
              CallDelete 1; CallCreate "Carol" "c@x.com"] in
  list_snapshot (snd r) /\ list_length (fst r) (snd r).
Proof.
  intros r. split.
  - apply (proj1 List_spec).
  - apply (proj2 List_spec (fst r) (snd r)); [apply exec_run|discriminate].
Defined.

(** ** The HTTP adapter *)

Lemma responds_reply {R : Type} (resp : R) s : Http.responds (Http.Reply resp) s resp s.
Proof.
  intros resp0 s0. split.
  - inversion 1; subst; auto.
  - intros [-> ->]. constructor.
Qed.

Lemma responds_get {R : Type} id (k : User * bool -> Http.Handler R) s resp s' :
  Http.responds (k (fst (Get s id))) (snd (Get s id)) resp s' ->
  Http.responds (Http.StoreGet id k) s resp s'.
Proof.
  intros H resp0 s0. split.
  - intros Hs. apply H. inversion Hs; subst. assumption.
  - intros Heq. apply Http.serve_get, H, Heq.
Qed.

Lemma responds_delete {R : Type} id (k : bool -> Http.Handler R) s resp s' :
  Http.responds (k (fst (Delete s id))) (snd (Delete s id)) resp s' ->
  Http.responds (Http.StoreDelete id k) s resp s'.
Proof.
  intros H resp0 s0. split.
  - intros Hs. apply H. inversion Hs; subst. assumption.
  - intros Heq. apply Http.serve_delete, H, Heq.
Qed.

Lemma Error_Code msg code : Http.Code (Http.Error Http.NewRecorder msg code) = code.
Proof. reflexivity. Qed.

(** Claim C7: on [GET /users/{id}] and [DELETE /users/{id}], a path id that
    [strconv.Atoi] rejects is answered with 400 and the store is not called;
    an id that parses but has no record is answered with 404; a [DELETE]
    that removed the record is answered with 204 and an empty body. *)
Theorem path_id_responses (r : Http.Request) (s : UserStore) :
  Http.path_id_contract r s.
Proof.
  unfold Http.path_id_contract, Http.HandleGetUser, Http.HandleDeleteUser.
  cbv zeta. split; [|split].
  - intros ->. cbn [Http.calls_store].
    split; [reflexivity|]. split; [reflexivity|].
    split; [apply responds_reply|]. split; [apply responds_reply|reflexivity].
  - intros id -> Habs. split; [|split; [|reflexivity]].
    + apply responds_get. unfold Get. rewrite Habs. cbn. apply responds_reply.
    + apply responds_delete. unfold Delete. rewrite Habs. cbn. apply responds_reply.
  - intros id -> [u Hu]. split; [|split; reflexivity].
    apply responds_delete. unfold Delete. rewrite Hu. cbn. apply responds_reply.
Qed.

Lemma path_id_responses_witness :
  let s := snd (Create NewUserStore "Alice" "a@x.com") in
  let abc := Http.mkRequest {["id" := "abc"]} in
  let absent := Http.mkRequest {["id" := "999"]} in
  let alice := Http.mkRequest {["id" := "1"]} in
  (Http.calls_store (Http.HandleGetUser Http.NewRecorder abc) = false /\
   Http.calls_store (Http.HandleDeleteUser Http.NewRecorder abc) = false /\
   Http.responds (Http.HandleGetUser Http.NewRecorder abc) s
     (Http.Error Http.NewRecorder "invalid id" 400) s) /\
  (Http.responds (Http.HandleGetUser Http.NewRecorder absent) s
     (Http.Error Http.NewRecorder "user not found" 404) s /\
   Http.responds (Http.HandleDeleteUser Http.NewRecorder absent) s
     (Http.Error Http.NewRecorder "user not found" 404) s) /\
  Http.responds (Http.HandleDeleteUser Http.NewRecorder alice) s
    (Http.WriteHeader 204 Http.NewRecorder) (mkStore ∅ 2).
Proof.
  intros s abc absent alice.
  assert (Habc : Http.Atoi (Http.PathValue abc "id") = None) by reflexivity.
  assert (Habsent : Http.Atoi (Http.PathValue absent "id") = Some 999) by reflexivity.
  assert (Halice : Http.Atoi (Http.PathValue alice "id") = Some 1) by reflexivity.
  assert (Hno : users s !! 999 = None) by reflexivity.
  assert (Hyes : is_Some (users s !! 1)) by (eexists; reflexivity).
  assert (Hs : mkStore (delete 1 (users s)) (next s) = mkStore ∅ 2).
  { subst s. cbn [Create snd users next NewUserStore].
    rewrite delete_insert_eq, delete_empty. reflexivity. }
  pose proof (path_id_responses abc s) as (Hbad & _ & _).
  pose proof (path_id_responses absent s) as (_ & Hmissing & _).
  pose proof (path_id_responses alice s) as (_ & _ & Hgone).
  destruct (Hbad Habc) as (H1 & H2 & H3 & _).
  destruct (Hmissing 999 Habsent Hno) as (H4 & H5 & _).
  destruct (Hgone 1 Halice Hyes) as (H6 & _).
  rewrite Hs in H6. auto 10.
Defined.

(** ** Concurrent calls of [Create] *)

Import Concurrent.

Lemma sched_step_inv i sh gs sh' gs' :
  sched_step i (sh, gs) = Some (sh', gs') ->
  exists g g' l1 l2,
    gs = l1 ++ g :: l2 /\ gs' = l1 ++ g' :: l2 /\ gstep sh g = Some (sh', g').
Proof.
  unfold sched_step. simpl.
  destruct (gs !! i) as [g|] eqn:Hi; [|discriminate].
  destruct (gstep sh g) as [[sh1 g1]|] eqn:Hg; [|discriminate].
  intros [= <- <-].
  exists g, g1, (take i gs), (drop (S i) gs).
  split; [symmetry; now apply take_drop_middle|].
  split; [|assumption].
  apply insert_take_drop. eapply lookup_lt_Some. eassumption.
Qed.

Lemma sched_step_middle sh l1 g l2 sh' g' :
  gstep sh g = Some (sh', g') ->
  sched_step (length l1) (sh, l1 ++ g :: l2) = Some (sh', l1 ++ g' :: l2).
Proof.
  intros Hg. unfold sched_step. simpl.
  rewrite list_lookup_middle by reflexivity. rewrite Hg.
  f_equal. f_equal.
  rewrite insert_app_r_alt by lia. now rewrite Nat.sub_diag.
Qed.

Lemma filter_in_cs_middle l1 g l2 :
  List.filter in_cs (l1 ++ g :: l2)
  = List.filter in_cs l1 ++ (if in_cs g then [g] else []) ++ List.filter in_cs l2.
Proof.
  rewrite List.filter_app. simpl. destruct (in_cs g); reflexivity.
Qed.

Lemma filter_in_cs_nil l :
  List.filter in_cs l = [] -> Forall (fun g => in_cs g = false) l.
Proof.
  induction l as [|g l IH]; simpl; [constructor|].
  destruct (in_cs g) eqn:E; [discriminate|]. intros H. constructor; auto.
Qed.

Lemma finish_outside g s : in_cs g = false -> finish g s = s.
Proof. unfold in_cs, finish. destruct (pc g); (discriminate || reflexivity). Qed.

Lemma foldr_finish_outside l s :
  Forall (fun g => in_cs g = false) l -> foldr finish s l = s.
Proof.
  induction 1 as [|g l Hg _ IH]; simpl; [reflexivity|].
  rewrite IH. now apply finish_outside.
Qed.

Lemma settled_middle sh l1 g l2 :
  Forall (fun g => in_cs g = false) l1 ->
  Forall (fun g => in_cs g = false) l2 ->
  settled (sh, l1 ++ g :: l2) = finish g (guarded sh).
Proof.
  intros H1 H2. unfold settled. simpl. rewrite foldr_app. simpl.
  rewrite (foldr_finish_outside l2) by assumption.
  now apply foldr_finish_outside.
Qed.

Lemma entry_outside sh sh' g : in_cs g = false -> entry sh g = entry sh' g.
Proof. unfold in_cs, entry. destruct (pc g); (discriminate || reflexivity). Qed.

Lemma omap_entry_outside sh sh' l :
  Forall (fun g => in_cs g = false) l -> omap (entry sh) l = omap (entry sh') l.
Proof.
  induction 1 as [|g l Hg _ IH]; [reflexivity|].
  cbn. rewrite (entry_outside sh sh' g Hg).
  destruct (entry sh' g); [f_equal|]; exact IH.
Qed.

Lemma omap_entry_middle sh l1 g l2 :
  omap (entry sh) (l1 ++ g :: l2)
  = omap (entry sh) l1 ++ option_list (entry sh g) ++ omap (entry sh) l2.
Proof.
  rewrite omap_app. simpl. destruct (entry sh g); reflexivity.
Qed.

(** Whoever takes a step, nobody else is inside [Create]. *)
Lemma others_outside sh l1 g l2 sh' g' :
  linearized (sh, l1 ++ g :: l2) ->
  gstep sh g = Some (sh', g') ->
  Forall (fun g => in_cs g = false) l1 /\ Forall (fun g => in_cs g = false) l2.
Proof.
  intros (Hr & Hcs & _) Hg. simpl in *.
  rewrite filter_in_cs_middle, !length_app in Hcs.
  assert (Hnil : List.filter in_cs l1 = [] /\ List.filter in_cs l2 = []).
  { unfold gstep, Lock in Hg. unfold in_cs in Hcs at 2.
    destruct (pc g); destruct (writer (mu sh)); simpl in Hg, Hcs; try discriminate;
      split; apply length_zero_iff_nil; lia. }
  destruct Hnil. split; now apply filter_in_cs_nil.
Qed.

Lemma filter_in_cs_outside l :
  Forall (fun g => in_cs g = false) l -> List.filter in_cs l = [].
Proof.
  induction 1 as [|g l Hg _ IH]; simpl; [reflexivity|]. now rewrite Hg.
Qed.

Lemma outside_not_AtStore l g u :
  Forall (fun g => in_cs g = false) l -> g ∈ l -> pc g <> AtStore u.
Proof.
  intros Hl Hin Hpc. rewrite Forall_forall in Hl. specialize (Hl g Hin).
  unfold in_cs in Hl. rewrite Hpc in Hl. discriminate.
Qed.

(** Every step keeps the invariant. *)
Lemma linearized_step sh l1 g l2 sh' g' :
  linearized (sh, l1 ++ g :: l2) ->
  gstep sh g = Some (sh', g') ->
  linearized (sh', l1 ++ g' :: l2).
Proof.
  intros Hinv Hg. destruct (others_outside _ _ _ _ _ _ Hinv Hg) as [H1 H2].
  destruct Hinv as (Hr & Hcs & Hst & h & Hex & Hperm). simpl in Hr, Hcs, Hst.
  rewrite settled_middle in Hex by assumption.
  cbn [fst snd] in Hperm. rewrite omap_entry_middle in Hperm.
  rewrite filter_in_cs_middle, !filter_in_cs_outside in Hcs by assumption.
  unfold linearized. cbn [fst snd].
  rewrite settled_middle by assumption.
  rewrite filter_in_cs_middle, !filter_in_cs_outside by assumption.
  rewrite omap_entry_middle.
  rewrite <- (omap_entry_outside sh sh' l1), <- (omap_entry_outside sh sh' l2) by assumption.
  assert (Hothers : forall g0 u, g0 ∈ l1 ++ g' :: l2 -> pc g0 = AtStore u ->
                                 g0 = g').
  { intros g0 u Hin Hpc. apply elem_of_app in Hin as [Hin|Hin].
    - now destruct (outside_not_AtStore l1 g0 u H1 Hin).
    - apply elem_of_cons in Hin as [->|Hin]; [reflexivity|].
      now destruct (outside_not_AtStore l2 g0 u H2 Hin). }
  unfold gstep in Hg. unfold in_cs, entry, finish in *.
  destruct (pc g) as [| |u|u|u|u] eqn:Hpc.
  - (* Lock *)
    unfold Lock in Hg.
    destruct (writer (mu sh)) eqn:Hw; [discriminate|].
    rewrite Hr in Hg. simpl in Hg. injection Hg as <- <-. simpl.
    split; [assumption|]. split; [reflexivity|]. split.
    { intros g0 u Hin Hp. rewrite (Hothers _ _ Hin Hp) in Hp. discriminate. }
    exists (h ++ [(CallCreate (arg_name g) (arg_email g),
                   RetUser (fst (Create (guarded sh) (arg_name g) (arg_email g))))]).
    split.
    + econstructor; [exact Hex|]. apply step_create.
    + simpl in Hperm. rewrite Hperm. simpl.
      rewrite <- app_assoc. apply Permutation_app_head.
      symmetry. apply Permutation_cons_append.
  - (* build the record *)
    injection Hg as <- <-. simpl.
    split; [assumption|]. split; [exact Hcs|]. split.
    { intros g0 u Hin Hp. rewrite (Hothers _ _ Hin Hp) in Hp |- *.
      simpl in Hp |- *. now injection Hp as <-. }
    exists h. split; [exact Hex|exact Hperm].
  - (* store it *)
    injection Hg as <- <-. simpl.
    split; [assumption|]. split; [exact Hcs|]. split.
    { intros g0 u0 Hin Hp. rewrite (Hothers _ _ Hin Hp) in Hp. discriminate. }
    exists h. split; [exact Hex|exact Hperm].
  - (* increment *)
    injection Hg as <- <-. simpl.
    split; [assumption|]. split; [exact Hcs|]. split.
    { intros g0 u0 Hin Hp. rewrite (Hothers _ _ Hin Hp) in Hp. discriminate. }
    exists h. split; [exact Hex|exact Hperm].
  - (* return and Unlock *)
    unfold Unlock in Hg.
    destruct (writer (mu sh)) eqn:Hw; [|discriminate].
    injection Hg as <- <-. simpl.
    split; [assumption|]. split; [reflexivity|]. split.
    { intros g0 u0 Hin Hp. rewrite (Hothers _ _ Hin Hp) in Hp. discriminate. }
    exists h. split; [exact Hex|exact Hperm].
  - discriminate.
Qed.

Lemma linearized_launch args : linearized (launch args).
Proof.
  unfold linearized, launch. cbn [fst snd mu readers writer].
  assert (Hout : Forall (fun g => in_cs g = false)
                   ((fun a => mkGoroutine (fst a) (snd a) AtLock) <$> args)).
  { apply Forall_fmap, Forall_true. reflexivity. }
  split; [reflexivity|]. split; [now rewrite filter_in_cs_outside|]. split.
  - intros g u Hin Hpc. apply list_elem_of_fmap in Hin as (a & -> & _). discriminate.
  - exists []. split.
    + unfold settled. cbn [fst snd guarded].
      rewrite foldr_finish_outside by assumption. constructor.
    + induction args as [|a args IH]; [reflexivity|]. cbn. apply IH.
      now inversion Hout.
Qed.

Lemma linearized_sched_step i cfg cfg' :
  linearized cfg -> sched_step i cfg = Some cfg' -> linearized cfg'.
Proof.
  destruct cfg as [sh gs], cfg' as [sh' gs']. intros Hinv Hstep.
  apply sched_step_inv in Hstep as (g & g' & l1 & l2 & -> & -> & Hg).
  eapply linearized_step; eassumption.
Qed.

Lemma linearized_run sched : forall cfg cfg',
  linearized cfg -> run_schedule sched cfg = Some cfg' -> linearized cfg'.
Proof.
  induction sched as [|i sched IH]; intros cfg cfg' Hinv Hrun; simpl in Hrun.
  - now injection Hrun as <-.
  - destruct (sched_step i cfg) as [cfg1|] eqn:Hstep; [|discriminate].
    eapply IH; [|eassumption]. eapply linearized_sched_step; eassumption.
Qed.

Lemma run_schedule_app sched1 sched2 cfg :
  run_schedule (sched1 ++ sched2) cfg
  = match run_schedule sched1 cfg with
    | Some cfg1 => run_schedule sched2 cfg1
    | None => None
    end.
Proof.
  revert cfg. induction sched1 as [|i sched1 IH]; intros cfg; simpl; [reflexivity|].
  destruct (sched_step i cfg); [apply IH|reflexivity].
Qed.

Lemma gstep_remaining sh g sh' g' :
  gstep sh g = Some (sh', g') -> remaining g = S (remaining g').
Proof.
  unfold gstep, remaining.
  destruct (pc g); try destruct (Lock _); try destruct (Unlock _);
    intros [= <- <-]; reflexivity.
Qed.

(** Every step of the scheduler uses up one statement. *)
Lemma sched_step_remaining i cfg cfg' :
  sched_step i cfg = Some cfg' ->
  total_remaining cfg = S (total_remaining cfg') /\
  length (snd cfg') = length (snd cfg).
Proof.
  destruct cfg as [sh gs], cfg' as [sh' gs']. intros Hstep.
  apply sched_step_inv in Hstep as (g & g' & l1 & l2 & -> & -> & Hg).
  unfold total_remaining. cbn [snd].
  rewrite !fmap_app, !fmap_cons, !sum_list_with_app, !length_app. simpl.
  rewrite (gstep_remaining _ _ _ _ Hg). lia.
Qed.

Lemma run_schedule_remaining sched : forall cfg cfg',
  run_schedule sched cfg = Some cfg' ->
  (length sched + total_remaining cfg' = total_remaining cfg)%nat /\
  length (snd cfg') = length (snd cfg).
Proof.
  induction sched as [|i sched IH]; intros cfg cfg' Hrun; simpl in Hrun.
  - injection Hrun as <-. auto.
  - destruct (sched_step i cfg) as [cfg1|] eqn:Hstep; [|discriminate].
    destruct (sched_step_remaining _ _ _ Hstep) as [Ht Hl].
    destruct (IH _ _ Hrun) as [Ht' Hl']. simpl. split; lia.
Qed.

Lemma total_remaining_launch args :
  total_remaining (launch args) = (5 * length args)%nat.
Proof.
  unfold total_remaining, launch. cbn [snd].
  induction args as [|a args IH]; [reflexivity|].
  cbn [fmap list_fmap sum_list sum_list_with length] in *. rewrite IH.
  unfold remaining at 1. simpl. lia.
Qed.

Lemma all_returned_zero cfg :
  total_remaining cfg = O -> all_returned cfg = true.
Proof.
  destruct cfg as [sh gs]. unfold total_remaining, all_returned. cbn [snd].
  induction gs as [|g gs IH]; [reflexivity|].
  cbn [fmap list_fmap sum_list sum_list_with forallb]. intros H.
  rewrite IH by lia. unfold remaining in H. unfold has_returned.
  destruct (pc g); simpl in H; (lia || reflexivity).
Qed.

Lemma remaining_somewhere gs :
  (0 < sum_list (remaining <$> gs))%nat ->
  exists l1 g l2, gs = l1 ++ g :: l2 /\ (0 < remaining g)%nat.
Proof.
  induction gs as [|g gs IH]; cbn [fmap list_fmap sum_list sum_list_with]; [lia|].
  intros H. destruct (remaining g) eqn:E.
  - destruct (IH ltac:(simpl in H; lia)) as (l1 & g0 & l2 & -> & Hg0).
    exists (g :: l1), g0, l2. auto.
  - exists [], g, gs. split; [reflexivity|lia].
Qed.

(** No deadlock: as long as a goroutine has statements left, one of the
    goroutines can take a step. *)
Lemma no_deadlock cfg :
  linearized cfg -> (0 < total_remaining cfg)%nat ->
  exists i cfg', sched_step i cfg = Some cfg'.
Proof.
  destruct cfg as [sh gs]. intros (Hr & Hcs & _) Hpos. cbn [fst snd] in *.
  destruct (writer (mu sh)) eqn:Hw.
  - destruct (List.filter in_cs gs) as [|g l] eqn:Hf; [discriminate|].
    assert (Hin : In g (List.filter in_cs gs)) by (rewrite Hf; now left).
    apply List.filter_In in Hin as [Hin Hg].
    apply List.in_split in Hin as (l1 & l2 & ->).
    assert (Hstep : exists sh' g', gstep sh g = Some (sh', g')).
    { unfold gstep, Unlock. unfold in_cs in Hg.
      destruct (pc g); try discriminate; rewrite ?Hw; eauto. }
    destruct Hstep as (sh' & g' & Hstep).
    eexists _, _. apply sched_step_middle. eassumption.
  - apply length_zero_iff_nil, filter_in_cs_nil in Hcs.
    destruct (remaining_somewhere gs Hpos) as (l1 & g & l2 & -> & Hg).
    apply Forall_app in Hcs as [_ Hcs]. apply Forall_cons in Hcs as [Hout _].
    assert (Hstep : exists sh' g', gstep sh g = Some (sh', g')).
    { unfold gstep, Lock. unfold in_cs in Hout. unfold remaining in Hg.
      destruct (pc g); try discriminate; try lia.
      rewrite Hw, Hr. simpl. eauto. }
    destruct Hstep as (sh' & g' & Hstep).
    eexists _, _. apply sched_step_middle. eassumption.
Qed.

(** Every configuration of a run can be run to the end. *)
Lemma runs_to_the_end n : forall cfg,
  total_remaining cfg = n -> linearized cfg ->
  exists sched cfg', run_schedule sched cfg = Some cfg' /\ all_returned cfg' = true.
Proof.
  induction n as [|n IH]; intros cfg Hn Hinv.
  - exists [], cfg. split; [reflexivity|now apply all_returned_zero].
  - destruct (no_deadlock cfg Hinv ltac:(lia)) as (i & cfg1 & Hstep).
    destruct (sched_step_remaining _ _ _ Hstep) as [Ht _].
    destruct (IH cfg1 ltac:(lia) (linearized_sched_step _ _ _ Hinv Hstep))
      as (sched & cfg' & Hrun & Hall).
    exists (i :: sched), cfg'. simpl. rewrite Hstep. auto.
Qed.

Lemma filter_length_Permutation {A} (f : A -> bool) (l l' : list A) :
  l ≡ₚ l' -> length (List.filter f l) = length (List.filter f l').
Proof.
  induction 1 as [|x l l' _ IH|x y l|l l' l'' _ IH1 _ IH2]; simpl.
  - reflexivity.
  - destruct (f x); simpl; now rewrite IH.
  - destruct (f x), (f y); reflexivity.
  - now rewrite IH1.
Qed.

Lemma returned_outside gs :
  forallb has_returned gs = true -> Forall (fun g => in_cs g = false) gs.
Proof.
  induction gs as [|g gs IH]; simpl; [constructor|].
  intros [Hg Hgs]%andb_true_iff. constructor; [|auto].
  unfold has_returned in Hg. unfold in_cs. destruct (pc g); (discriminate || reflexivity).
Qed.

Lemma omap_cons_Some {A B} (f : A -> option B) x y l :
  f x = Some y -> omap f (x :: l) = y :: omap f l.
Proof. intros H. cbn. now rewrite H. Qed.

(** The calls of goroutines that have all returned. *)
Lemma entries_returned sh gs :
  forallb has_returned gs = true ->
  issued (omap (entry sh) gs) = ID <$> results (sh, gs) /\
  creates (omap (entry sh) gs) = length gs /\
  deletes_ok (omap (entry sh) gs) = O /\
  Forall (fun cr => is_create cr = true) (omap (entry sh) gs) /\
  (forall u, u ∈ results (sh, gs) ->
     exists name email, (CallCreate name email, RetUser u) ∈ omap (entry sh) gs).
Proof.
  unfold results. cbn [snd].
  induction gs as [|g gs IH].
  - intros _. repeat split; try constructor. intros u Hu. inversion Hu.
  - intros [Hg Hgs]%andb_true_iff.
    destruct (IH Hgs) as (Hi & Hc & Hd & Hf & Hres).
    unfold has_returned in Hg.
    destruct (pc g) as [| |u|u|u|u] eqn:Hpc; try discriminate.
    rewrite (omap_cons_Some (entry sh) g
               (CallCreate (arg_name g) (arg_email g), RetUser u))
      by (unfold entry; now rewrite Hpc).
    rewrite (omap_cons_Some _ g u) by now rewrite Hpc.
    split. { change (ID u :: issued (omap (entry sh) gs) = ID u :: (ID <$> omap
               (fun g => match pc g with Returned u => Some u | _ => None end) gs)).
             now f_equal. }
    split. { change (S (creates (omap (entry sh) gs)) = S (length gs)). now f_equal. }
    split. { exact Hd. }
    split. { constructor; [reflexivity|assumption]. }
    intros u0 [->|Hu0]%elem_of_cons.
    + eexists _, _. left.
    + destruct (Hres _ Hu0) as (n & e & Hin). eexists _, _. right. eassumption.
Qed.

(** In a history of [Create] calls that were handed different ids, every
    record returned is the one stored under its id. *)
Lemma creates_only_stored h s :
  exec NewUserStore h s ->
  Forall (fun cr => is_create cr = true) h ->
  NoDup (issued h) ->
  forall name email u, (CallCreate name email, RetUser u) ∈ h ->
                       users s !! ID u = Some u.
Proof.
  induction 1 as [|h s1 c r s2 He IH Hstep]; intros Hall Hnd name email u Hin.
  - inversion Hin.
  - apply Forall_app in Hall as [Hall Hc].
    apply Forall_cons in Hc as [Hc _].
    destruct c as [n e| | |]; try discriminate.
    apply step_create_inv in Hstep as [-> ->].
    rewrite issued_app in Hnd. cbn in Hnd. apply NoDup_app in Hnd as (Hnd & Hdis & _).
    cbn [Create fst snd users].
    apply elem_of_app in Hin as [Hin|Hin].
    + rewrite lookup_insert_ne; [eapply IH; eassumption|].
      intros Heq. apply (Hdis (ID u)).
      * unfold issued. apply list_elem_of_omap. eexists. split; [exact Hin|reflexivity].
      * rewrite <- Heq. left.
    + apply list_elem_of_singleton in Hin. injection Hin as -> -> ->.
      cbn. apply lookup_insert_eq.
Qed.

(** The history behind a run that has come to its end. *)
Lemma final_history args sched cfg :
  run_schedule sched (launch args) = Some cfg ->
  all_returned cfg = true ->
  exists h,
    exec NewUserStore h (guarded (fst cfg)) /\
    creates h = length args /\ deletes_ok h = O /\
    Forall (fun cr => is_create cr = true) h /\
    issued h ≡ₚ ID <$> results cfg /\
    (forall u, u ∈ results cfg -> exists name email, (CallCreate name email, RetUser u) ∈ h).
Proof.
  intros Hrun Hall.
  pose proof (linearized_run _ _ _ (linearized_launch args) Hrun) as (_ & _ & _ & h & Hex & Hperm).
  destruct (run_schedule_remaining _ _ _ Hrun) as [_ Hlen].
  destruct cfg as [sh gs]. unfold all_returned in Hall. cbn [fst snd] in *.
  unfold settled in Hex. cbn [fst snd] in Hex.
  rewrite foldr_finish_outside in Hex by now apply returned_outside.
  destruct (entries_returned sh gs Hall) as (Hi & Hc & Hd & Hf & Hres).
  exists h. split; [assumption|].
  unfold launch in Hlen. cbn [snd] in Hlen. rewrite length_fmap in Hlen.
  split. { unfold creates in *. rewrite (filter_length_Permutation _ _ _ Hperm). lia. }
  split. { unfold deletes_ok in *. now rewrite (filter_length_Permutation _ _ _ Hperm). }
  split. { now rewrite Hperm. }
  split. { rewrite <- Hi. unfold issued. now rewrite Hperm. }
  intros u Hu. destruct (Hres u Hu) as (n & e & Hin). exists n, e. now rewrite Hperm.
Qed.

(** The ids that the calls of a finished run were handed, whatever the
    interleaving. *)
Lemma concurrent_ids args sched cfg :
  run_schedule sched (launch args) = Some cfg ->
  all_returned cfg = true ->
  ID <$> results cfg ≡ₚ GoInt.wrap <$> seqZ 1 (Z.of_nat (length args)).
Proof.
  intros Hrun Hall.
  destruct (final_history _ _ _ Hrun Hall) as (h & Hex & Hc & _ & _ & Hi & _).
  destruct (exec_fresh_shape _ _ Hex) as (_ & Hshape & _).
  now rewrite <- Hi, Hshape, Hc.
Qed.

Lemma results_among_entries sh gs :
  ID <$> results (sh, gs) `sublist_of` issued (omap (entry sh) gs).
Proof.
  unfold results, issued. cbn [snd].
  induction gs as [|g gs IH]; [constructor|].
  cbn. unfold entry at 1.
  destruct (pc g); cbn; try (now constructor); exact IH.
Qed.

Lemma creates_entries sh gs : (creates (omap (entry sh) gs) <= length gs)%nat.
Proof.
  unfold creates. induction gs as [|g gs IH]; [reflexivity|].
  cbn. unfold entry at 1. destruct (pc g); cbn; lia.
Qed.

(** At every point of a run of at most [MaxInt] goroutines, the calls that
    have returned were handed different ids. *)
Lemma results_distinct args sched cfg :
  Z.of_nat (length args) <= GoInt.MaxInt ->
  run_schedule sched (launch args) = Some cfg ->
  NoDup (ID <$> results cfg).
Proof.
  intros Hn Hrun.
  pose proof (linearized_run _ _ _ (linearized_launch args) Hrun) as (_ & _ & _ & h & Hex & Hperm).
  destruct (run_schedule_remaining _ _ _ Hrun) as [_ Hlen].
  unfold launch in Hlen. cbn [snd] in Hlen. rewrite length_fmap in Hlen.
  destruct cfg as [sh gs]. cbn [fst snd] in *.
  destruct (exec_fresh_shape _ _ Hex) as (_ & Hshape & _).
  assert (Hc : (creates h <= length args)%nat).
  { unfold creates. rewrite (filter_length_Permutation _ _ _ Hperm), <- Hlen.
    apply creates_entries. }
  rewrite wrap_seqZ in Hshape by lia.
  eapply sublist_NoDup; [|apply (results_among_entries sh gs)].
  unfold issued. rewrite <- Hperm. fold (issued h). rewrite Hshape. apply NoDup_seqZ.
Qed.

(** Claim C8: for every number N of goroutines, each calling [Create] once
    on a fresh store, every interleaving of their statements is finite and
    can be run to the end, at no point have two calls returned the same id,
    and at the end of every interleaving the store holds exactly N records,
    under the ids 1 to N, every call's record is the one stored under its
    id, and [List] returns N records.  N is at most [MaxInt] (2^63 - 1), as
    it is in every run: a record takes 40 bytes (an [int] and two strings)
    and a goroutine more, and 2^63 of them do not fit in the 2^64 bytes
    that a 64-bit machine addresses. *)
Theorem concurrent_creates_up_to_MaxInt (args : list (string * string)) :
  Z.of_nat (length args) <= GoInt.MaxInt ->
  Concurrent.concurrent_creates args.
Proof.
  intros Hn. unfold concurrent_creates. cbv zeta. split.
  - intros sched cfg Hrun.
    destruct (run_schedule_remaining _ _ _ Hrun) as [Ht _].
    rewrite total_remaining_launch in Ht. split; [exact Ht|].
    split; [eapply results_distinct; eassumption|].
    pose proof (linearized_run _ _ _ (linearized_launch args) Hrun) as Hinv.
    destruct (runs_to_the_end _ cfg eq_refl Hinv) as (sched' & cfg' & Hrun' & Hall).
    exists sched', cfg'. rewrite run_schedule_app, Hrun. auto.
  - intros sched cfg Hrun Hall.
    destruct (final_history _ _ _ Hrun Hall) as (h & Hex & Hc & Hd & Hf & Hi & Hres).
    destruct (exec_fresh_shape _ _ Hex) as (_ & Hshape & Hkeys).
    rewrite Hc, wrap_seqZ in Hshape by assumption.
    assert (Hnd : NoDup (issued h)) by (rewrite Hshape; apply NoDup_seqZ).
    assert (H64 : GoInt.MaxInt < 2 ^ GoInt.intSize) by reflexivity.
    pose proof (size_users _ _ Hex ltac:(lia)) as Hsize.
    pose proof (creates_only_stored _ _ Hex Hf Hnd) as Hstored.
    split; [lia|]. split; [|split; [|split; [|split]]].
    + intros id. split.
      * intros [u Hu]. destruct (Hkeys _ _ Hu) as [_ Hin].
        rewrite Hshape in Hin. apply elem_of_seqZ in Hin. lia.
      * intros Hid.
        assert (Hin : id ∈ issued h) by (rewrite Hshape; apply elem_of_seqZ; lia).
        unfold issued in Hin. apply list_elem_of_omap in Hin as ([c r] & Hin & Hcr).
        destruct c; try discriminate. destruct r; try discriminate.
        injection Hcr as <-. eexists. eapply Hstored. eassumption.
    + rewrite <- Hi. assumption.
    + rewrite <- Hi, Hshape. reflexivity.
    + intros u Hu. destruct (Hres u Hu) as (n & e & Hin). eapply Hstored. eassumption.
    + intros l s' Hl. rewrite (List_length _ _ _ Hl). lia.
Qed.

(** Why the theorem names the bound: the model puts no limit on memory,
    and there the counter of 2^63 goroutines wraps.  No run of the program
    has that many. *)
Lemma concurrent_creates_fails_at args :
  Z.of_nat (length args) = 2 ^ (GoInt.intSize - 1) ->
  ~ Concurrent.concurrent_creates args.
Proof.
  intros Hn [Hruns Hend].
  destruct (Hruns [] (launch args) eq_refl) as (_ & _ & sched & cfg & Hrun & Hall).
  simpl in Hrun.
  destruct (Hend sched cfg Hrun Hall) as (_ & _ & _ & Hperm & _).
  rewrite (concurrent_ids _ _ _ Hrun Hall), Hn in Hperm.
  assert (Hin : GoInt.MinInt ∈ GoInt.wrap <$> seqZ 1 (2 ^ (GoInt.intSize - 1))).
  { apply list_elem_of_fmap. exists (2 ^ (GoInt.intSize - 1)).
    split; [reflexivity|]. apply elem_of_seqZ. split; [discriminate|reflexivity]. }
  rewrite Hperm in Hin. apply elem_of_seqZ in Hin. destruct Hin as [Hin _].
  now apply Hin.
Qed.

Lemma concurrent_creates_up_to_MaxInt_witness :
  let args := replicate 10 ("User", "user@test.com") in
  Z.of_nat (length args) <= GoInt.MaxInt /\ Concurrent.concurrent_creates args.
Proof.
  intros args. split; [discriminate|].
  apply (concurrent_creates_up_to_MaxInt args). discriminate.
Defined.

(** A goroutine that runs alone performs exactly the transition [Create]. *)
Lemma Create_alone (s : UserStore) (name email : string) :
  run_schedule [0; 0; 0; 0; 0]%nat
    (mkShared (mkMutex false 0) s, [mkGoroutine name email AtLock])
  = Some (mkShared (mkMutex false 0) (snd (Create s name email)),
          [mkGoroutine name email (Returned (fst (Create s name email)))]).
Proof. reflexivity. Qed.

(** ** The repository's tests, replayed on the model *)

Example Atoi_samples :
  Http.Atoi "abc" = None /\ Http.Atoi "" = None /\ Http.Atoi "-" = None /\
  Http.Atoi "12" = Some 12 /\ Http.Atoi "-5" = Some (-5) /\ Http.Atoi "+7" = Some 7 /\
  Http.Atoi "9223372036854775807" = Some GoInt.MaxInt /\
  Http.Atoi "9223372036854775808" = None.
Proof. repeat split; reflexivity. Qed.

(** [TestHandleListUsers]: two records after two calls of [Create]. *)
Example two_users_listed :
  length (fst (List (snd (run NewUserStore
    [CallCreate "Alice" "alice@test.com"; CallCreate "Bob" "bob@test.com"])))) = 2%nat.
Proof. reflexivity. Qed.

(** [TestHandleGetUser] and [TestHandleGetUserNotFound]. *)
Example get_user_found :
  Http.responds
    (Http.HandleGetUser Http.NewRecorder (Http.mkRequest {["id" := "1"]}))
    (snd (Create NewUserStore "Alice" "alice@test.com"))
    (Http.Write (Http.JSONUser (mkUser 1 "Alice" "alice@test.com"))
       (Http.Header_Set "Content-Type" "application/json" Http.NewRecorder))
    (snd (Create NewUserStore "Alice" "alice@test.com")).
Proof.
  unfold Http.HandleGetUser.
  change (Http.Atoi _) with (Some 1).
  apply responds_get. apply responds_reply.
Qed.

Example get_user_not_found :
  Http.responds
    (Http.HandleGetUser Http.NewRecorder (Http.mkRequest {["id" := "999"]}))
    NewUserStore
    (Http.Error Http.NewRecorder "user not found" 404)
    NewUserStore.
Proof.
  unfold Http.HandleGetUser.
  change (Http.Atoi _) with (Some 999).
  apply responds_get. apply responds_reply.
Qed.

(** [TestHandleDeleteUser]: 204, and the record is gone. *)
Example delete_user :
  Http.responds
    (Http.HandleDeleteUser Http.NewRecorder (Http.mkRequest {["id" := "1"]}))
    (snd (Create NewUserStore "Alice" "alice@test.com"))
    (Http.WriteHeader 204 Http.NewRecorder)
    (snd (Delete (snd (Create NewUserStore "Alice" "alice@test.com")) 1)) /\
  snd (fst (Get (snd (Delete (snd (Create NewUserStore "Alice" "alice@test.com")) 1)) 1))
  = false.
Proof.
  split; [|reflexivity].
  unfold Http.HandleDeleteUser.
  change (Http.Atoi _) with (Some 1).
  apply responds_delete. apply responds_reply.
Qed.

(** [TestUserStoreConcurrent], with two goroutines: the second one is blocked
    at [Lock] while the first is inside [Create]; once the first has
    returned the second runs, and the ids are 1 and 2. *)
Example two_goroutines :
  let start := launch [("User", "user@test.com"); ("User", "user@test.com")] in
  let ids := fun cfg : Config => ID <$> results cfg in
  run_schedule [0; 0; 1]%nat start = None /\
  ids <$> run_schedule [0; 0; 0; 0; 0; 1; 1; 1; 1; 1]%nat start = Some [1; 2] /\
  ids <$> run_schedule [1; 1; 1; 0; 1; 1; 0; 0; 0; 0; 0]%nat start = None /\
  ids <$> run_schedule [1; 1; 1; 1; 1; 0; 0; 0; 0; 0]%nat start = Some [2; 1].
Proof. repeat split; reflexivity. Qed.

(** ** More on single calls and histories *)

(** Property X1: when [next] is not yet a key, [Delete] of the id that
    [Create] just handed out returns [true] and restores the mapping, while
    the counter stays advanced. *)
Theorem Delete_undoes_Create (s : UserStore) (name email : string) :
  users s !! next s = None ->
  Delete (snd (Create s name email)) (ID (fst (Create s name email)))
  = (true, mkStore (users s) (GoInt.incr (next s))).
Proof.
  intros Hfree. unfold Delete, Create. cbn [fst snd users next ID].
  rewrite lookup_insert_eq, delete_insert_eq, delete_id by assumption.
  reflexivity.
Qed.

Lemma Delete_undoes_Create_witness :
  users NewUserStore !! next NewUserStore = None /\
  Delete (snd (Create NewUserStore "Alice" "a@x.com")) 1
  = (true, mkStore ∅ 2).
Proof.
  split; [reflexivity|].
  exact (Delete_undoes_Create NewUserStore "Alice" "a@x.com" eq_refl).
Defined.

(** Property X2: what one call does to the number of records. *)
Theorem size_after_step (s : UserStore) (c : Call) (r : Ret) (s' : UserStore) :
  step s c r s' ->
  size (users s') =
    match c, r with
    | CallCreate _ _, _ =>
        match users s !! next s with
        | Some _ => size (users s)
        | None => S (size (users s))
        end
    | CallDelete _, RetBool true => pred (size (users s))
    | _, _ => size (users s)
    end.
Proof.
  intros Hstep. inversion Hstep; subst.
  - cbn [Create snd users]. rewrite map_size_insert.
    destruct (users s !! next s); reflexivity.
  - unfold Get. destruct (users s !! id); reflexivity.
  - reflexivity.
  - unfold Delete. destruct (users s !! id) as [u|] eqn:E; cbn [fst snd users].
    + apply map_size_delete_Some. eauto.
    + reflexivity.
Qed.

Lemma size_after_step_witness :
  let s := snd (Create NewUserStore "Alice" "a@x.com") in
  step s (CallDelete 1) (RetBool true) (mkStore ∅ 2) /\
  size (users (mkStore ∅ 2)) = pred (size (users s)).
Proof.
  intros s.
  assert (Hstep : step s (CallDelete 1) (RetBool true) (mkStore ∅ 2)).
  { pose proof (step_delete s 1) as H.
    replace (Delete s 1) with (true, mkStore ∅ 2) in H; [exact H|].
    subst s. unfold Delete, Create. cbn [fst snd users next NewUserStore].
    rewrite lookup_insert_eq, delete_insert_eq, delete_empty. reflexivity. }
  split; [exact Hstep|].
  exact (size_after_step s (CallDelete 1) (RetBool true) (mkStore ∅ 2) Hstep).
Defined.

(** Property X3: records are never changed or invented.  Whatever the store
    was before a history, a record found in the mapping afterwards is either
    the record that was under that id before, or exactly the record that a
    [Create] of the history returned, built from that call's arguments. *)
Theorem records_come_from_Create (s : UserStore) (h : History) (s' : UserStore) :
  exec s h s' ->
  forall id u, users s' !! id = Some u ->
    users s !! id = Some u \/
    exists name email,
      (CallCreate name email, RetUser u) ∈ h /\
      ID u = id /\ Name u = name /\ Email u = email.
Proof.
  induction 1 as [|h s1 c r s2 He IH Hstep]; intros id u Hl; [now left|].
  assert (Hold : users s1 !! id = Some u ->
                 users s !! id = Some u \/
                 exists name email,
                   (CallCreate name email, RetUser u) ∈ h ++ [(c, r)] /\
                   ID u = id /\ Name u = name /\ Email u = email).
  { intros Hl1. destruct (IH _ _ Hl1) as [?|(n & e & Hin & Hrest)]; [now left|].
    right. exists n, e. split; [|exact Hrest]. apply elem_of_app. now left. }
  inversion Hstep; subst.
  - cbn [Create snd users] in Hl.
    apply lookup_insert_Some in Hl as [[<- <-]|[_ Hl]]; [|auto].
    right. exists name, email. split; [|auto].
    apply elem_of_app. right. apply list_elem_of_singleton. reflexivity.
  - unfold Get in Hl. destruct (users s1 !! id0); auto.
  - auto.
  - unfold Delete in Hl. destruct (users s1 !! id0); cbn [snd users] in Hl; [|auto].
    apply lookup_delete_Some in Hl as [_ Hl]. auto.
Qed.

Lemma records_come_from_Create_witness :
  let r := run NewUserStore [CallCreate "Alice" "a@x.com"; CallCreate "Bob" "b@x.com"] in
  exec NewUserStore (fst r) (snd r) /\
  users (snd r) !! 2 = Some (mkUser 2 "Bob" "b@x.com") /\
  (users NewUserStore !! 2 = Some (mkUser 2 "Bob" "b@x.com") \/
   exists name email,
     (CallCreate name email, RetUser (mkUser 2 "Bob" "b@x.com")) ∈ fst r /\
     ID (mkUser 2 "Bob" "b@x.com") = 2 /\
     Name (mkUser 2 "Bob" "b@x.com") = name /\
     Email (mkUser 2 "Bob" "b@x.com") = email).
Proof.
  intros r. split; [apply exec_run|]. split; [reflexivity|].
  exact (records_come_from_Create NewUserStore (fst r) (snd r) (exec_run _ _)
           2 (mkUser 2 "Bob" "b@x.com") eq_refl).
Defined.

(** An id that is not in the mapping and that no [Create] of a history hands
    out is not in the mapping afterwards. *)
Lemma absent_stays_absent s h s' id :
  exec s h s' -> users s !! id = None -> id ∉ issued h ->
  users s' !! id = None.
Proof.
  induction 1 as [|h s1 c r s2 He IH Hstep]; intros Habs Hnot; [assumption|].
  rewrite issued_app in Hnot. apply not_elem_of_app in Hnot as [Hnot Hlast].
  specialize (IH Habs Hnot). inversion Hstep; subst.
  - cbn [Create snd users]. rewrite lookup_insert_ne; [assumption|].
    intros Heq. apply Hlast. rewrite <- Heq. left.
  - unfold Get. destruct (users s1 !! id0); assumption.
  - assumption.
  - unfold Delete. destruct (users s1 !! id0); cbn [snd users]; [|assumption].
    apply lookup_delete_None. now right.
Qed.

(** Property X4: deletion is permanent.  Along a history of a fresh store
    with fewer than [MaxInt] [Create] calls, an id that a [Delete] removed is
    in the mapping at no later point: [Get] reports it missing and another
    [Delete] returns [false]. *)
Theorem deleted_stays_deleted (h1 : History) (id : Z) (h2 : History) (s : UserStore) :
  exec NewUserStore (h1 ++ (CallDelete id, RetBool true) :: h2) s ->
  Z.of_nat (creates (h1 ++ (CallDelete id, RetBool true) :: h2)) < GoInt.MaxInt ->
  users s !! id = None /\
  fst (Get s id) = (zeroUser, false) /\
  Delete s id = (false, s).
Proof.
  intros He Hc.
  assert (Habs : users s !! id = None).
  { destruct (exec_fresh_small _ _ He Hc) as (_ & Hi & _).
    assert (Hnd : NoDup (issued (h1 ++ (CallDelete id, RetBool true) :: h2)))
      by (rewrite Hi; apply NoDup_seqZ).
    apply exec_prefix in He as (s1 & He1 & He2).
    apply exec_cons_inv in He2 as (s1' & Hstep & He2).
    apply step_delete_inv in Hstep as [[= Htrue] ->].
    symmetry in Htrue. apply Delete_true_present in Htrue as [u Hu].
    destruct (exec_fresh_shape _ _ He1) as (_ & _ & Hkeys).
    destruct (Hkeys _ _ Hu) as [_ Hin1].
    rewrite issued_app in Hnd. apply NoDup_app in Hnd as (_ & Hdis & _).
    eapply absent_stays_absent; [exact He2| |exact (Hdis id Hin1)].
    unfold Delete. rewrite Hu. cbn [snd users]. apply lookup_delete_eq. }
  split; [exact Habs|]. unfold Get, Delete. rewrite Habs. auto.
Qed.

Lemma deleted_stays_deleted_witness :
  let h1 := fst (run NewUserStore [CallCreate "Alice" "a@x.com"]) in
  let h2 := fst (run (mkStore ∅ 2) [CallCreate "Bob" "b@x.com"; CallList]) in
  let s := snd (run NewUserStore
                  [CallCreate "Alice" "a@x.com"; CallDelete 1;
                   CallCreate "Bob" "b@x.com"; CallList]) in
  exec NewUserStore (h1 ++ (CallDelete 1, RetBool true) :: h2) s /\
  users s !! 1 = None.
Proof.
  intros h1 h2 s.
  assert (He : exec NewUserStore (h1 ++ (CallDelete 1, RetBool true) :: h2) s).
  { exact (exec_run [CallCreate "Alice" "a@x.com"; CallDelete 1;
                     CallCreate "Bob" "b@x.com"; CallList] NewUserStore). }
  split; [exact He|].
  exact (proj1 (deleted_stays_deleted h1 1 h2 s He eq_refl)).
Defined.

(** Property X5: in every state reachable from a fresh store, the records
    that [List] returns have pairwise different ids, and a record is listed
    exactly when [Get] of its id returns it. *)
Theorem listed_records (h : History) (s : UserStore) (l : list User) (s' : UserStore) :
  exec NewUserStore h s ->
  step s CallList (RetList l) s' ->
  NoDup (ID <$> l) /\
  (forall u, u ∈ l <-> fst (Get s (ID u)) = (u, true)).
Proof.
  intros He Hstep.
  destruct (exec_fresh_shape _ _ He) as (_ & _ & Hkeys).
  destruct (List_snapshot_always s) as [_ Hsnap].
  destruct (Hsnap _ _ Hstep) as (l0 & [= <-] & _ & Hperm & Hmem).
  split.
  - rewrite Hperm.
    replace (ID <$> (snd <$> map_to_list (users s)))
      with (fst <$> map_to_list (users s)); [apply NoDup_fst_map_to_list|].
    rewrite <- list_fmap_compose. apply list_fmap_ext.
    intros i [id u] Hi. cbn.
    apply list_elem_of_lookup_2, elem_of_map_to_list in Hi.
    now destruct (Hkeys _ _ Hi).
  - intros u. rewrite Hmem. unfold Get. split.
    + intros (id & Hu). destruct (Hkeys _ _ Hu) as [<- _]. now rewrite Hu.
    + intros Hget. exists (ID u).
      destruct (users s !! ID u) as [u0|]; [|discriminate].
      now injection Hget as ->.
Qed.

Lemma listed_records_witness :
  let r := run NewUserStore
             [CallCreate "Alice" "a@x.com"; CallCreate "Bob" "b@x.com"; CallDelete 1] in
  exec NewUserStore (fst r) (snd r) /\
  step (snd r) CallList (RetList (fst (List (snd r)))) (snd r) /\
  NoDup (ID <$> fst (List (snd r))).
Proof.
  intros r.
  assert (Hstep : step (snd r) CallList (RetList (fst (List (snd r)))) (snd r))
    by exact (step_call (snd r) CallList).
  split; [apply exec_run|]. split; [exact Hstep|].
  exact (proj1 (listed_records (fst r) (snd r) _ _ (exec_run _ _) Hstep)).
Defined.

(** Property X6: the ids a fresh store hands out are determined by the
    number of earlier [Create] calls alone, whatever calls of [Get], [List]
    and [Delete] lie between them: the [Create] call number [k + 1] returns
    the id [k + 1] wrapped into the [int] range, and [next] is the id the
    following [Create] will return. *)
Theorem nth_create_id (h : History) (s : UserStore) (k : nat) :
  exec NewUserStore h s ->
  (k < creates h)%nat ->
  issued h !! k = Some (GoInt.wrap (Z.of_nat k + 1)) /\
  next s = GoInt.wrap (Z.of_nat (creates h) + 1) /\
  ID (fst (Create s "" "")) = GoInt.wrap (Z.of_nat (creates h) + 1).
Proof.
  intros He Hk. destruct (exec_fresh_shape _ _ He) as (Hn & Hi & _).
  split; [|split].
  - rewrite Hi, list_lookup_fmap, lookup_seqZ_lt by lia.
    cbn. do 2 f_equal. lia.
  - rewrite Hn. f_equal. lia.
  - cbn [Create fst ID]. rewrite Hn. f_equal. lia.
Qed.

Lemma nth_create_id_witness :
  let r := run NewUserStore
             [CallCreate "Alice" "a@x.com"; CallDelete 1; CallCreate "Bob" "b@x.com"] in
  exec NewUserStore (fst r) (snd r) /\ (1 < creates (fst r))%nat /\
  issued (fst r) !! 1%nat = Some 2 /\ next (snd r) = 3.
Proof.
  intros r.
  assert (Hk : (1 < creates (fst r))%nat) by (vm_compute; lia).
  split; [apply exec_run|]. split; [exact Hk|].
  destruct (nth_create_id (fst r) (snd r) 1 (exec_run _ _) Hk) as (H1 & H2 & _).
  split; [exact H1|exact H2].
Defined.

(** ** The rest of the HTTP adapter *)

Lemma responds_create {R : Type} name email (k : User -> Http.Handler R) s resp s' :
  Http.responds (k (fst (Create s name email))) (snd (Create s name email)) resp s' ->
  Http.responds (Http.StoreCreate name email k) s resp s'.
Proof.
  intros H resp0 s0. split.
  - intros Hs. apply H. inversion Hs; subst. assumption.
  - intros Heq. apply Http.serve_create, H, Heq.
Qed.

(** Property X7: [GET /users/{id}] with an id that parses and has a record
    answers 200 with content type [application/json] and that record as the
    body, and leaves the store as it was. *)
Theorem get_user_success (r : Http.Request) (s : UserStore) (id : Z) (u : User) :
  Http.Atoi (Http.PathValue r "id") = Some id ->
  users s !! id = Some u ->
  Http.responds (Http.HandleGetUser Http.NewRecorder r) s
    (Adapter.json_response 200 (Http.JSONUser u)) s.
Proof.
  intros Hid Hu. unfold Http.HandleGetUser. rewrite Hid.
  apply responds_get. unfold Get. rewrite Hu. cbn.
  apply responds_reply.
Qed.

Lemma get_user_success_witness :
  let s := snd (Create NewUserStore "Alice" "alice@test.com") in
  let r := Http.mkRequest {["id" := "1"]} in
  Http.Atoi (Http.PathValue r "id") = Some 1 /\
  users s !! 1 = Some (mkUser 1 "Alice" "alice@test.com") /\
  Http.responds (Http.HandleGetUser Http.NewRecorder r) s
    (Adapter.json_response 200 (Http.JSONUser (mkUser 1 "Alice" "alice@test.com"))) s.
Proof.
  intros s r.
  assert (Hid : Http.Atoi (Http.PathValue r "id") = Some 1) by reflexivity.
  assert (Hu : users s !! 1 = Some (mkUser 1 "Alice" "alice@test.com")) by reflexivity.
  split; [exact Hid|]. split; [exact Hu|].
  exact (get_user_success r s 1 _ Hid Hu).
Defined.

(** Property X8: [GET /users] always answers 200 with content type
    [application/json] and a JSON array that holds exactly the records of
    the mapping, in some order; it never fails and leaves the store as it
    was. *)
Theorem list_users_response (r : Http.Request) (s : UserStore) :
  (exists l, Http.serve (Http.HandleListUsers Http.NewRecorder r) s
               (Adapter.json_response 200 (Http.JSONUsers l)) s) /\
  (forall resp s', Http.serve (Http.HandleListUsers Http.NewRecorder r) s resp s' ->
     s' = s /\
     exists l, resp = Adapter.json_response 200 (Http.JSONUsers l) /\
               l ≡ₚ snd <$> map_to_list (users s)).
Proof.
  split.
  - exists (List_loop (map_to_list (users s))).
    apply (Http.serve_list _ s (map_to_list (users s))).
    + unfold range_order. reflexivity.
    + apply Http.serve_reply.
  - intros resp s' Hs. unfold Http.HandleListUsers in Hs.
    inversion Hs as [| | |k s0 entries r0 s0' Hperm Hk|]; subst.
    inversion Hk; subst. split; [reflexivity|].
    exists (List_loop entries). split; [reflexivity|].
    rewrite List_loop_values. unfold range_order in Hperm. now rewrite Hperm.
Qed.

(** Property X9: [POST /users] answers 400 without calling the store when
    the body does not decode; otherwise it calls [Create] once with the
    decoded name and email and answers 201 with content type
    [application/json] and the created record as the body. *)
Theorem create_user_responses (Decode : string -> option (string * string))
  (body : string) (s : UserStore) :
  (Decode body = None ->
     Http.calls_store (Adapter.HandleCreateUser Decode Http.NewRecorder body) = false /\
     Http.responds (Adapter.HandleCreateUser Decode Http.NewRecorder body) s
       (Http.Error Http.NewRecorder "invalid request body" 400) s /\
     Http.Code (Http.Error Http.NewRecorder "invalid request body" 400) = 400) /\
  (forall name email, Decode body = Some (name, email) ->
     Http.responds (Adapter.HandleCreateUser Decode Http.NewRecorder body) s
       (Adapter.json_response 201 (Http.JSONUser (mkUser (next s) name email)))
       (snd (Create s name email))).
Proof.
  unfold Adapter.HandleCreateUser. split.
  - intros ->. split; [reflexivity|]. split; [apply responds_reply|reflexivity].
  - intros name email ->. apply responds_create. apply responds_reply.
Qed.

Lemma create_user_responses_witness :
  let Decode := fun b : string =>
    if String.eqb b "ok" then Some ("Test", "test@test.com") else None in
  Http.responds (Adapter.HandleCreateUser Decode Http.NewRecorder "ok") NewUserStore
    (Adapter.json_response 201 (Http.JSONUser (mkUser 1 "Test" "test@test.com")))
    (snd (Create NewUserStore "Test" "test@test.com")) /\
  Http.responds (Adapter.HandleCreateUser Decode Http.NewRecorder "{") NewUserStore
    (Http.Error Http.NewRecorder "invalid request body" 400) NewUserStore.
Proof.
  intros Decode. split.
  - exact (proj2 (create_user_responses Decode "ok" NewUserStore) _ _ eq_refl).
  - exact (proj1 (proj2 (proj1 (create_user_responses Decode "{" NewUserStore) eq_refl))).
Defined.

(** Property X10: the requests compose.  After [POST /users] has created a
    record, [GET] of its id answers 200 with the same record, [DELETE] of its
    id answers 204 with no body, and [GET] of its id then answers 404. *)
Theorem post_get_delete_get (Decode : string -> option (string * string))
  (body name email : string) (r : Http.Request) (s : UserStore) :
  Decode body = Some (name, email) ->
  Http.Atoi (Http.PathValue r "id") = Some (next s) ->
  let u := mkUser (next s) name email in
  let s1 := snd (Create s name email) in
  let s2 := mkStore (delete (next s) (users s)) (next s1) in
  Http.responds (Adapter.HandleCreateUser Decode Http.NewRecorder body) s
    (Adapter.json_response 201 (Http.JSONUser u)) s1 /\
  Http.responds (Http.HandleGetUser Http.NewRecorder r) s1
    (Adapter.json_response 200 (Http.JSONUser u)) s1 /\
  Http.responds (Http.HandleDeleteUser Http.NewRecorder r) s1
    (Http.WriteHeader 204 Http.NewRecorder) s2 /\
  Http.Body (Http.WriteHeader 204 Http.NewRecorder) = [] /\
  Http.responds (Http.HandleGetUser Http.NewRecorder r) s2
    (Http.Error Http.NewRecorder "user not found" 404) s2.
Proof.
  intros Hdec Hid u s1 s2.
  split; [|split; [|split; [|split]]].
  - unfold Adapter.HandleCreateUser. rewrite Hdec.
    apply responds_create. apply responds_reply.
  - unfold Http.HandleGetUser. rewrite Hid. apply responds_get.
    unfold Get. subst s1. cbn [Create snd users]. rewrite lookup_insert_eq.
    cbn. apply responds_reply.
  - unfold Http.HandleDeleteUser. rewrite Hid. apply responds_delete.
    unfold Delete. subst s1 s2. cbn [Create snd users next].
    rewrite lookup_insert_eq. cbn. rewrite delete_insert_eq. apply responds_reply.
  - reflexivity.
  - unfold Http.HandleGetUser. rewrite Hid. apply responds_get.
    unfold Get. subst s2. cbn [users]. rewrite lookup_delete_eq.
    cbn. apply responds_reply.
Qed.

Lemma post_get_delete_get_witness :
  let Decode := fun _ : string => Some ("Alice", "a@x.com") in
  let r := Http.mkRequest {["id" := "1"]} in
  Http.responds (Http.HandleGetUser Http.NewRecorder r)
    (snd (Create NewUserStore "Alice" "a@x.com"))
    (Adapter.json_response 200 (Http.JSONUser (mkUser 1 "Alice" "a@x.com")))
    (snd (Create NewUserStore "Alice" "a@x.com")).
Proof.
  intros Decode r.
  exact (proj1 (proj2 (post_get_delete_get Decode "" "Alice" "a@x.com" r NewUserStore
                         eq_refl eq_refl))).
Defined.

(** ** More on concurrent calls of [Create] *)

Lemma in_cs_twice l1 g1 l2 g2 l3 :
  in_cs g1 = true -> in_cs g2 = true ->
  (2 <= length (List.filter in_cs (l1 ++ g1 :: l2 ++ g2 :: l3)))%nat.
Proof.
  intros H1 H2.
  rewrite filter_in_cs_middle, H1, !length_app. cbn [length].
  rewrite filter_in_cs_middle, H2, !length_app. cbn [length]. lia.
Qed.

(** Property X11: mutual exclusion.  At every point of every interleaving,
    two different goroutines are never both between [Lock] and [Unlock], and
    the mutex is held by a writer exactly when some goroutine is. *)
Theorem mutual_exclusion (args : list (string * string)) (sched : list nat) (cfg : Config) :
  run_schedule sched (launch args) = Some cfg ->
  (forall i j gi gj, snd cfg !! i = Some gi -> snd cfg !! j = Some gj ->
     in_cs gi = true -> in_cs gj = true -> i = j) /\
  (writer (mu (fst cfg)) = true <-> exists g, g ∈ snd cfg /\ in_cs g = true) /\
  readers (mu (fst cfg)) = O.
Proof.
  intros Hrun.
  pose proof (linearized_run _ _ _ (linearized_launch args) Hrun) as (Hr & Hcs & _).
  destruct cfg as [sh gs]. cbn [fst snd] in *.
  assert (Hle : (length (List.filter in_cs gs) <= 1)%nat)
    by (rewrite Hcs; destruct (writer (mu sh)); lia).
  assert (Hlt : forall i j gi gj, (i < j)%nat -> gs !! i = Some gi -> gs !! j = Some gj ->
                                  in_cs gi = true -> in_cs gj = true -> False).
  { intros i j gi gj Hij Hi Hj Hci Hcj.
    pose proof (take_drop_middle gs i gi Hi) as E1.
    assert (Hj' : drop (S i) gs !! (j - S i)%nat = Some gj).
    { rewrite lookup_drop. replace (S i + (j - S i))%nat with j by lia. exact Hj. }
    pose proof (take_drop_middle _ _ _ Hj') as E2.
    rewrite <- E2 in E1. rewrite <- E1 in Hle.
    pose proof (in_cs_twice (take i gs) gi (take (j - S i) (drop (S i) gs)) gj
                  (drop (S (j - S i)) (drop (S i) gs)) Hci Hcj). lia. }
  split; [|split; [|exact Hr]].
  - intros i j gi gj Hi Hj Hci Hcj.
    destruct (Nat.lt_trichotomy i j) as [Hij|[Hij|Hij]]; [|exact Hij|].
    + destruct (Hlt i j gi gj Hij Hi Hj Hci Hcj).
    + destruct (Hlt j i gj gi Hij Hj Hi Hcj Hci).
  - split.
    + intros Hw. rewrite Hw in Hcs.
      destruct (List.filter in_cs gs) as [|g l] eqn:Hf; [discriminate|].
      assert (Hin : In g (List.filter in_cs gs)) by (rewrite Hf; now left).
      apply List.filter_In in Hin as [Hin Hg].
      exists g. split; [now apply list_elem_of_In|exact Hg].
    + intros (g & Hin & Hg). destruct (writer (mu sh)); [reflexivity|].
      apply length_zero_iff_nil, filter_in_cs_nil in Hcs.
      rewrite Forall_forall in Hcs. rewrite (Hcs g Hin) in Hg. discriminate.
Qed.

Lemma mutual_exclusion_witness :
  let start := launch [("User", "user@test.com"); ("User", "user@test.com")] in
  exists cfg, run_schedule [1; 1; 1]%nat start = Some cfg /\
              writer (mu (fst cfg)) = true /\ readers (mu (fst cfg)) = O.
Proof.
  intros start.
  destruct (run_schedule [1; 1; 1]%nat start) as [cfg|] eqn:Hrun; [|discriminate].
  exists cfg. split; [reflexivity|].
  destruct (mutual_exclusion _ _ _ Hrun) as (_ & Hw & Hr).
  split; [|exact Hr].
  apply Hw. vm_compute in Hrun. injection Hrun as <-.
  eexists. split; [apply list_elem_of_lookup; exists 1%nat; reflexivity|reflexivity].
Defined.

Lemma create_all_app s l1 l2 :
  create_all s (l1 ++ l2)
  = (fst (create_all s l1) ++ fst (create_all (snd (create_all s l1)) l2),
     snd (create_all (snd (create_all s l1)) l2)).
Proof.
  revert s. induction l1 as [|a l1 IH]; intros s.
  - cbn. now destruct (create_all s l2).
  - cbn [app create_all fst snd]. now rewrite IH.
Qed.

(** A history of [Create] calls is [create_all] on its arguments. *)
Lemma exec_create_all s h s' :
  exec s h s' -> Forall (fun cr => is_create cr = true) h ->
  create_all s (create_args h) = (create_rets h, s').
Proof.
  induction 1 as [|h s1 c r s2 He IH Hstep]; intros Hall; [reflexivity|].
  apply Forall_app in Hall as [Hall Hc]. apply Forall_cons in Hc as [Hc _].
  specialize (IH Hall).
  destruct c as [n e| | |]; try discriminate.
  apply step_create_inv in Hstep as [-> ->].
  unfold create_args, create_rets in *. rewrite !omap_app, create_all_app, IH.
  reflexivity.
Qed.

Lemma exec_create_ret s h s' name email u :
  exec s h s' -> (CallCreate name email, RetUser u) ∈ h ->
  Name u = name /\ Email u = email.
Proof.
  induction 1 as [|h s1 c r s2 He IH Hstep]; intros Hin; [inversion Hin|].
  apply elem_of_app in Hin as [Hin|Hin]; [auto|].
  apply list_elem_of_singleton in Hin. injection Hin as <- <-.
  apply step_create_inv in Hstep as [[= ->] _]. auto.
Qed.

Lemma gstep_args sh g sh' g' :
  gstep sh g = Some (sh', g') ->
  arg_name g' = arg_name g /\ arg_email g' = arg_email g.
Proof.
  unfold gstep.
  destruct (pc g); try destruct (Lock _); try destruct (Unlock _);
    intros [= <- <-]; auto.
Qed.

(** A run changes no goroutine's arguments. *)
Lemma run_schedule_args sched : forall cfg cfg',
  run_schedule sched cfg = Some cfg' ->
  (fun g => (arg_name g, arg_email g)) <$> snd cfg'
  = (fun g => (arg_name g, arg_email g)) <$> snd cfg.
Proof.
  induction sched as [|i sched IH]; intros cfg cfg' Hrun; simpl in Hrun.
  - now injection Hrun as <-.
  - destruct (sched_step i cfg) as [cfg1|] eqn:Hstep; [|discriminate].
    rewrite (IH _ _ Hrun). destruct cfg as [sh gs], cfg1 as [sh1 gs1].
    apply sched_step_inv in Hstep as (g & g' & l1 & l2 & -> & -> & Hg).
    destruct (gstep_args _ _ _ _ Hg) as [Hn He]. cbn [snd].
    rewrite !fmap_app, !fmap_cons, Hn, He. reflexivity.
Qed.

Lemma entries_args sh gs :
  forallb has_returned gs = true ->
  create_args (omap (entry sh) gs) = (fun g => (arg_name g, arg_email g)) <$> gs /\
  create_rets (omap (entry sh) gs) = results (sh, gs).
Proof.
  unfold results. cbn [snd].
  induction gs as [|g gs IH]; [auto|].
  intros [Hg Hgs]%andb_true_iff. destruct (IH Hgs) as [Ha Hr].
  unfold has_returned in Hg.
  destruct (pc g) as [| |u|u|u|u] eqn:Hpc; try discriminate.
  rewrite (omap_cons_Some (entry sh) g
             (CallCreate (arg_name g) (arg_email g), RetUser u))
    by (unfold entry; now rewrite Hpc).
  rewrite (omap_cons_Some _ g u) by now rewrite Hpc.
  split.
  - change ((arg_name g, arg_email g) :: create_args (omap (entry sh) gs)
            = (arg_name g, arg_email g) :: ((fun g => (arg_name g, arg_email g)) <$> gs)).
    now f_equal.
  - change (u :: create_rets (omap (entry sh) gs)
            = u :: omap (fun g => match pc g with Returned u => Some u | _ => None end) gs).
    now f_equal.
Qed.

(** Property X12: concurrent calls of [Create] are atomic.  Whatever the
    number of goroutines and the interleaving, when all have returned the
    store is the one that the same calls leave when made one after the other
    in some order, the records returned are the ones those calls return, and
    every goroutine got a record with its own name and email. *)
Theorem creates_linearizable (args : list (string * string)) (sched : list nat) (cfg : Config) :
  run_schedule sched (launch args) = Some cfg ->
  all_returned cfg = true ->
  (exists order, order ≡ₚ args /\
     snd (create_all NewUserStore order) = guarded (fst cfg) /\
     fst (create_all NewUserStore order) ≡ₚ results cfg) /\
  (forall g u, g ∈ snd cfg -> pc g = Returned u ->
     Name u = arg_name g /\ Email u = arg_email g).
Proof.
  intros Hrun Hall.
  pose proof (linearized_run _ _ _ (linearized_launch args) Hrun) as (_ & _ & _ & h & Hex & Hperm).
  pose proof (run_schedule_args _ _ _ Hrun) as Hargs.
  destruct cfg as [sh gs]. unfold all_returned in Hall. cbn [fst snd] in *.
  unfold settled in Hex. cbn [fst snd] in Hex.
  rewrite foldr_finish_outside in Hex by now apply returned_outside.
  destruct (entries_returned sh gs Hall) as (_ & _ & _ & Hf & _).
  destruct (entries_args sh gs Hall) as [Ha Hr].
  split.
  - exists (create_args h).
    assert (Hfh : Forall (fun cr => is_create cr = true) h) by now rewrite Hperm.
    rewrite (exec_create_all _ _ _ Hex Hfh). cbn [fst snd].
    split; [|split; [reflexivity|]].
    + unfold create_args. rewrite Hperm. fold (create_args (omap (entry sh) gs)).
      rewrite Ha, Hargs. unfold launch. cbn [snd].
      rewrite <- list_fmap_compose.
      rewrite <- (list_fmap_id args) at 2. apply reflexive_eq, list_fmap_ext.
      intros i [n e] _. reflexivity.
    + unfold create_rets. rewrite Hperm. fold (create_rets (omap (entry sh) gs)).
      now rewrite Hr.
  - intros g u Hin Hpc.
    eapply (exec_create_ret _ _ _ _ _ _ Hex). rewrite Hperm.
    apply list_elem_of_omap. exists g. split; [exact Hin|].
    unfold entry. now rewrite Hpc.
Qed.

Lemma creates_linearizable_witness :
  let start := launch [("Ann", "a@x.com"); ("Bob", "b@x.com")] in
  exists cfg, run_schedule [1; 1; 1; 1; 1; 0; 0; 0; 0; 0]%nat start = Some cfg /\
    all_returned cfg = true /\
    exists order, order ≡ₚ [("Ann", "a@x.com"); ("Bob", "b@x.com")] /\
      snd (create_all NewUserStore order) = guarded (fst cfg).
Proof.
  intros start.
  destruct (run_schedule [1; 1; 1; 1; 1; 0; 0; 0; 0; 0]%nat start) as [cfg|] eqn:Hrun;
    [|discriminate].
  assert (Hall : all_returned cfg = true)
    by (vm_compute in Hrun; injection Hrun as <-; reflexivity).
  exists cfg. split; [reflexivity|]. split; [exact Hall|].
  destruct (creates_linearizable _ _ _ Hrun Hall) as [(order & Hp & Hs & _) _].
  exists order. auto.
Defined.

(** ** Concurrent calls of all methods *)

Lemma filter_middle {A} (f : A -> bool) l1 x l2 :
  List.filter f (l1 ++ x :: l2)
  = List.filter f l1 ++ (if f x then [x] else []) ++ List.filter f l2.
Proof. rewrite List.filter_app. simpl. destruct (f x); reflexivity. Qed.

Lemma filter_nil_false {A} (f : A -> bool) l :
  List.filter f l = [] <-> Forall (fun x => f x = false) l.
Proof.
  induction l as [|x l IH]; simpl; [split; [constructor|reflexivity]|].
  destruct (f x) eqn:E; split.
  - discriminate.
  - intros H. apply Forall_cons in H as [H _]. congruence.
  - intros H. constructor; [assumption|now apply IH].
  - intros H. apply Forall_cons in H as [_ H]. now apply IH.
Qed.

Lemma tsched_step_inv ic sh ts sh' ts' :
  Goroutines.pool_step ic (sh, ts) = Some (sh', ts') ->
  exists t t' l1 l2,
    ts = l1 ++ t :: l2 /\ ts' = l1 ++ t' :: l2 /\
    Goroutines.tstep (snd ic) sh t = Some (sh', t').
Proof.
  unfold Goroutines.pool_step. cbn [fst snd].
  destruct (ts !! fst ic) as [t|] eqn:Hi; [|discriminate].
  destruct (Goroutines.tstep (snd ic) sh t) as [[sh1 t1]|] eqn:Ht; [|discriminate].
  intros [= <- <-].
  exists t, t1, (take (fst ic) ts), (drop (S (fst ic)) ts).
  split; [symmetry; now apply take_drop_middle|].
  split; [|assumption].
  apply insert_take_drop. eapply lookup_lt_Some. eassumption.
Qed.

Lemma tsched_step_middle c sh l1 t l2 sh' t' :
  Goroutines.tstep c sh t = Some (sh', t') ->
  Goroutines.pool_step (length l1, c) (sh, l1 ++ t :: l2) = Some (sh', l1 ++ t' :: l2).
Proof.
  intros Ht. unfold Goroutines.pool_step. cbn [fst snd].
  rewrite list_lookup_middle by reflexivity. rewrite Ht.
  f_equal. f_equal.
  rewrite insert_app_r_alt by lia. now rewrite Nat.sub_diag.
Qed.

Lemma tfinish_outside t s : Goroutines.writing t = false -> Goroutines.roll_forward t s = s.
Proof.
  destruct t as [g|id pc|pc|id pc]; cbn; try reflexivity.
  - apply finish_outside.
  - destruct pc; (discriminate || reflexivity).
Qed.

Lemma foldr_tfinish_outside l s :
  Forall (fun t => Goroutines.writing t = false) l -> foldr Goroutines.roll_forward s l = s.
Proof.
  induction 1 as [|t l Ht _ IH]; simpl; [reflexivity|].
  rewrite IH. now apply tfinish_outside.
Qed.

Lemma tsettled_middle sh l1 t l2 :
  Forall (fun t => Goroutines.writing t = false) l1 ->
  Forall (fun t => Goroutines.writing t = false) l2 ->
  Goroutines.rolled_forward (sh, l1 ++ t :: l2) = Goroutines.roll_forward t (Concurrent.guarded sh).
Proof.
  intros H1 H2. unfold Goroutines.rolled_forward. cbn [fst snd]. rewrite foldr_app. simpl.
  rewrite (foldr_tfinish_outside l2) by assumption.
  now apply foldr_tfinish_outside.
Qed.

Lemma tentry_outside s s' t :
  Goroutines.writing t = false -> Goroutines.fixed_call s t = Goroutines.fixed_call s' t.
Proof.
  destruct t as [g|id pc|pc|id pc]; cbn; try reflexivity.
  - unfold Concurrent.in_cs. destruct (Concurrent.pc g); (discriminate || reflexivity).
  - destruct pc; (discriminate || reflexivity).
Qed.

Lemma omap_tentry_outside s s' l :
  Forall (fun t => Goroutines.writing t = false) l ->
  omap (Goroutines.fixed_call s) l = omap (Goroutines.fixed_call s') l.
Proof.
  induction 1 as [|t l Ht _ IH]; [reflexivity|].
  cbn. rewrite (tentry_outside s s' t Ht).
  destruct (Goroutines.fixed_call s' t); [f_equal|]; exact IH.
Qed.

Lemma omap_tentry_middle s l1 t l2 :
  omap (Goroutines.fixed_call s) (l1 ++ t :: l2)
  = omap (Goroutines.fixed_call s) l1 ++ option_list (Goroutines.fixed_call s t)
      ++ omap (Goroutines.fixed_call s) l2.
Proof. rewrite omap_app. simpl. destruct (Goroutines.fixed_call s t); reflexivity. Qed.

Lemma coherent_outside s t :
  Goroutines.writing t = false -> Goroutines.reading t = false ->
  Goroutines.coherent s t.
Proof.
  destruct t as [g|id pc|pc|id pc]; cbn; try (intros; exact I).
  - intros Hw _ u Hpc. unfold Concurrent.in_cs in Hw. rewrite Hpc in Hw. discriminate.
  - destruct pc; intros; (discriminate || exact I).
Qed.

Lemma Forall_coherent_outside s l :
  Forall (fun t => Goroutines.writing t = false) l ->
  Forall (fun t => Goroutines.reading t = false) l ->
  Forall (Goroutines.coherent s) l.
Proof.
  intros Hw Hr. rewrite Forall_forall in *. intros t Hin.
  apply coherent_outside; auto.
Qed.

(** A goroutine that holds the write lock, or that [Lock] lets through, is
    the only one that holds the mutex. *)
Lemma writer_alone h sh l1 t l2 :
  Goroutines.serialized h (sh, l1 ++ t :: l2) ->
  Goroutines.writing t = true \/
  (Concurrent.writer (Concurrent.mu sh) = false /\
   Concurrent.readers (Concurrent.mu sh) = O) ->
  (Forall (fun t => Goroutines.writing t = false) l1 /\
   Forall (fun t => Goroutines.writing t = false) l2 /\
   Forall (fun t => Goroutines.reading t = false) l1 /\
   Forall (fun t => Goroutines.reading t = false) l2) /\
  (Goroutines.writing t = true ->
   Concurrent.writer (Concurrent.mu sh) = true /\
   Concurrent.readers (Concurrent.mu sh) = O /\
   Goroutines.reading t = false).
Proof.
  intros (Hr & Hcs & Hwr & _) Hcase. cbn [fst snd] in *.
  rewrite filter_middle, !length_app in Hr, Hcs.
  assert (Hz : length (List.filter Goroutines.writing l1) = O /\
               length (List.filter Goroutines.writing l2) = O /\
               length (List.filter Goroutines.reading l1) = O /\
               length (List.filter Goroutines.reading l2) = O /\
               (Goroutines.writing t = true ->
                Concurrent.writer (Concurrent.mu sh) = true /\
                Concurrent.readers (Concurrent.mu sh) = O /\
                Goroutines.reading t = false)).
  { destruct (Concurrent.writer (Concurrent.mu sh)) eqn:Hw;
      destruct (Goroutines.writing t) eqn:Hwt;
      destruct (Goroutines.reading t) eqn:Hrt;
      cbn [length] in Hr, Hcs;
      try specialize (Hwr eq_refl);
      destruct Hcase as [?|[? ?]]; try discriminate;
      repeat split; try lia; try congruence; try discriminate. }
  destruct Hz as (H1 & H2 & H3 & H4 & H5).
  split; [|exact H5].
  repeat split; apply filter_nil_false, length_zero_iff_nil; assumption.
Qed.

(** While a goroutine holds the read lock, or [RLock] lets one through, no
    goroutine holds the write lock. *)
Lemma no_writer h sh l1 t l2 :
  Goroutines.serialized h (sh, l1 ++ t :: l2) ->
  Concurrent.writer (Concurrent.mu sh) = false \/ Goroutines.reading t = true ->
  Concurrent.writer (Concurrent.mu sh) = false /\
  Forall (fun t => Goroutines.writing t = false) l1 /\
  Goroutines.writing t = false /\
  Forall (fun t => Goroutines.writing t = false) l2.
Proof.
  intros (Hr & Hcs & Hwr & _) Hcase. cbn [fst snd] in *.
  rewrite filter_middle, !length_app in Hr, Hcs.
  assert (Hw : Concurrent.writer (Concurrent.mu sh) = false).
  { destruct Hcase as [?|Hrt]; [assumption|].
    destruct (Concurrent.writer (Concurrent.mu sh)); [|reflexivity].
    specialize (Hwr eq_refl). rewrite Hrt in Hr. cbn [length] in Hr. lia. }
  rewrite Hw in Hcs. split; [exact Hw|].
  destruct (Goroutines.writing t); cbn [length] in Hcs; [lia|].
  repeat split; try apply filter_nil_false, length_zero_iff_nil; lia.
Qed.

(** A step of the goroutine that holds the mutex alone. *)
Lemma frame_writer h sh l1 t l2 sh' t' :
  Goroutines.serialized h (sh, l1 ++ t :: l2) ->
  Forall (fun t => Goroutines.writing t = false) l1 ->
  Forall (fun t => Goroutines.writing t = false) l2 ->
  Forall (fun t => Goroutines.reading t = false) l1 ->
  Forall (fun t => Goroutines.reading t = false) l2 ->
  Goroutines.reading t' = false ->
  Concurrent.writer (Concurrent.mu sh') = Goroutines.writing t' ->
  Concurrent.readers (Concurrent.mu sh') = O ->
  Goroutines.coherent (Concurrent.guarded sh') t' ->
  (exec NewUserStore h (Goroutines.roll_forward t (Concurrent.guarded sh)) ->
     exists h', h `prefix_of` h' /\
       exec NewUserStore h' (Goroutines.roll_forward t' (Concurrent.guarded sh')) /\
       forall X Y,
         h ≡ₚ X ++ option_list (Goroutines.fixed_call (Concurrent.guarded sh) t) ++ Y ->
         h' ≡ₚ X ++ option_list (Goroutines.fixed_call (Concurrent.guarded sh') t') ++ Y) ->
  exists h', Goroutines.serialized h' (sh', l1 ++ t' :: l2) /\ h `prefix_of` h'.
Proof.
  intros (_ & _ & _ & _ & Hex & Hperm) Hw1 Hw2 Hr1 Hr2 Hrt' Hwt' Hrd' Hco' Hhist.
  cbn [fst snd] in *.
  rewrite tsettled_middle in Hex by assumption.
  rewrite omap_tentry_middle in Hperm.
  destruct (Hhist Hex) as (h' & Hpre & Hex' & Hperm').
  exists h'. split; [|exact Hpre].
  unfold Goroutines.serialized. cbn [fst snd].
  rewrite !filter_middle, !length_app, Hrt'.
  rewrite (proj2 (filter_nil_false _ l1) Hr1), (proj2 (filter_nil_false _ l2) Hr2).
  rewrite (proj2 (filter_nil_false _ l1) Hw1), (proj2 (filter_nil_false _ l2) Hw2).
  rewrite tsettled_middle, omap_tentry_middle by assumption.
  split; [exact Hrd'|]. split; [rewrite Hwt'; now destruct (Goroutines.writing t')|].
  split; [intros _; exact Hrd'|]. split.
  - apply Forall_app. split; [now apply Forall_coherent_outside|].
    constructor; [exact Hco'|now apply Forall_coherent_outside].
  - split; [exact Hex'|].
    rewrite <- (omap_tentry_outside (Concurrent.guarded sh) (Concurrent.guarded sh') l1),
            <- (omap_tentry_outside (Concurrent.guarded sh) (Concurrent.guarded sh') l2)
      by assumption.
    now apply Hperm'.
Qed.

(** A step of a goroutine that takes, holds or gives back the read lock. *)
Lemma frame_reader h sh l1 t l2 sh' t' :
  Goroutines.serialized h (sh, l1 ++ t :: l2) ->
  Concurrent.writer (Concurrent.mu sh) = false ->
  Forall (fun t => Goroutines.writing t = false) l1 ->
  Forall (fun t => Goroutines.writing t = false) l2 ->
  Goroutines.writing t = false -> Goroutines.writing t' = false ->
  Concurrent.guarded sh' = Concurrent.guarded sh ->
  Concurrent.writer (Concurrent.mu sh') = false ->
  (Concurrent.readers (Concurrent.mu sh') + (if Goroutines.reading t then 1 else 0)
   = Concurrent.readers (Concurrent.mu sh) + (if Goroutines.reading t' then 1 else 0))%nat ->
  Goroutines.coherent (Concurrent.guarded sh) t' ->
  (Goroutines.fixed_call (Concurrent.guarded sh) t' = Goroutines.fixed_call (Concurrent.guarded sh) t \/
   (Goroutines.fixed_call (Concurrent.guarded sh) t = None /\
    exists c r, Goroutines.fixed_call (Concurrent.guarded sh) t' = Some (c, r) /\
                step (Concurrent.guarded sh) c r (Concurrent.guarded sh))) ->
  exists h', Goroutines.serialized h' (sh', l1 ++ t' :: l2) /\ h `prefix_of` h'.
Proof.
  intros (Hr & _ & _ & Hco & Hex & Hperm) Hw Hw1 Hw2 Hwt Hwt' Hg Hw' Hrd Hco' Hent.
  cbn [fst snd] in *.
  rewrite tsettled_middle, (tfinish_outside t) in Hex by assumption.
  rewrite omap_tentry_middle in Hperm.
  rewrite filter_middle, !length_app in Hr.
  apply Forall_app in Hco as [Hco1 Hco2]. apply Forall_cons in Hco2 as [_ Hco2].
  assert (Hmutex : forall h',
    exec NewUserStore h' (Concurrent.guarded sh) ->
    h' ≡ₚ omap (Goroutines.fixed_call (Concurrent.guarded sh)) l1
          ++ option_list (Goroutines.fixed_call (Concurrent.guarded sh) t')
          ++ omap (Goroutines.fixed_call (Concurrent.guarded sh)) l2 ->
    Goroutines.serialized h' (sh', l1 ++ t' :: l2)).
  { intros h' Hex' Hperm'. unfold Goroutines.serialized. cbn [fst snd].
    rewrite !filter_middle, !length_app, Hwt', Hw', Hg.
    rewrite (proj2 (filter_nil_false _ l1) Hw1), (proj2 (filter_nil_false _ l2) Hw2).
    rewrite tsettled_middle, (tfinish_outside t'), omap_tentry_middle, Hg by assumption.
    split. { destruct (Goroutines.reading t), (Goroutines.reading t'); cbn [length] in *; lia. }
    split; [reflexivity|]. split; [discriminate|]. split; [|split; assumption].
    apply Forall_app. split; [assumption|]. constructor; assumption. }
  destruct Hent as [Heq|(Hnone & c & r & Hsome & Hstep)].
  - exists h. split; [|reflexivity]. apply Hmutex; [assumption|]. now rewrite Heq.
  - exists (h ++ [(c, r)]). split; [|now apply prefix_app_r].
    apply Hmutex; [econstructor; eassumption|].
    rewrite Hsome. rewrite Hnone in Hperm. cbn in Hperm |- *. rewrite Hperm.
    rewrite <- app_assoc. apply Permutation_app_head.
    symmetry. apply Permutation_cons_append.
Qed.

Lemma coherent_middle s l1 t l2 :
  Forall (Goroutines.coherent s) (l1 ++ t :: l2) -> Goroutines.coherent s t.
Proof. intros H. apply Forall_app in H as [_ H]. now apply Forall_cons in H as [H _]. Qed.

(** The records the loop of [List] has collected once it has produced every
    key are the values of the map in some iteration order. *)
Lemma loop_done (m : gmap Z User) visited out :
  NoDup visited ->
  Forall2 (fun k u => m !! k = Some u) visited out ->
  Goroutines.all_visited m visited = true ->
  exists entries, range_order m entries /\ out = List_loop entries.
Proof.
  intros Hnd Hf Hall. exists (zip visited out).
  assert (Hlen : length visited = length out) by (eapply Forall2_length; eassumption).
  split.
  - unfold range_order. apply NoDup_Permutation.
    + apply (NoDup_fmap_1 fst). rewrite fst_zip by lia. exact Hnd.
    + apply NoDup_map_to_list.
    + intros [k u]. rewrite elem_of_map_to_list. split.
      * intros Hin. apply elem_of_lookup_zip_with_1 in Hin as (i & k1 & v1 & E & Hk & Hv).
        injection E as <- <-.
        eapply Forall2_lookup_lr in Hf; eassumption.
      * intros Hm. unfold Goroutines.all_visited in Hall.
        rewrite forallb_forall in Hall.
        assert (Hin : k ∈ visited).
        { specialize (Hall (k, u)). rewrite bool_decide_eq_true in Hall.
          apply Hall. apply list_elem_of_In, elem_of_map_to_list. exact Hm. }
        apply list_elem_of_lookup_1 in Hin as [i Hi].
        destruct (Forall2_lookup_l _ _ _ _ _ Hf Hi) as (u' & Hu' & Hmu').
        assert (u' = u) by congruence. subst u'.
        eapply (elem_of_lookup_zip_with_2 pair); [exact (k, u)|eassumption..].
  - rewrite List_loop_values, snd_zip by lia. reflexivity.
Qed.

(** Every statement of every method keeps the invariant. *)
Lemma tlinearized_step c h sh l1 t l2 sh' t' :
  Goroutines.serialized h (sh, l1 ++ t :: l2) ->
  Goroutines.tstep c sh t = Some (sh', t') ->
  exists h', Goroutines.serialized h' (sh', l1 ++ t' :: l2) /\ h `prefix_of` h'.
Proof.
  intros Hinv Ht.
  pose proof (coherent_middle _ _ _ _ (proj1 (proj2 (proj2 (proj2 Hinv))))) as Hco.
  cbn [fst snd] in Hco.
  destruct t as [g|id pc|pc|id pc].
  - (* Create *)
    cbn [Goroutines.tstep] in Ht.
    destruct (Concurrent.gstep sh g) as [[sh1 g1]|] eqn:Hg; [|discriminate].
    injection Ht as <- <-. unfold Concurrent.gstep in Hg.
    destruct (Concurrent.pc g) as [| |u|u|u|u] eqn:Hpc.
    + unfold Concurrent.Lock in Hg.
      destruct (Concurrent.writer (Concurrent.mu sh)) eqn:Hw; [discriminate|].
      destruct (Concurrent.readers (Concurrent.mu sh)) eqn:Hrd; [|discriminate].
      cbn in Hg. injection Hg as <- <-.
      destruct (writer_alone _ _ _ _ _ Hinv) as [(H1 & H2 & H3 & H4) _]; [now right|].
      eapply frame_writer; try eassumption; try reflexivity.
      * cbn. discriminate.
      * intros Hex. cbn in Hex |- *.
        unfold Concurrent.finish in Hex |- *. rewrite Hpc in Hex |- *. cbn.
        exists (h ++ [(CallCreate (Concurrent.arg_name g) (Concurrent.arg_email g),
                       RetUser (fst (Create (Concurrent.guarded sh) (Concurrent.arg_name g)
                                            (Concurrent.arg_email g))))]).
        split; [now apply prefix_app_r|].
        split; [econstructor; [exact Hex|apply step_create]|].
        intros X Y HP. rewrite HP. cbn.
        rewrite <- app_assoc. apply Permutation_app_head.
        symmetry. apply Permutation_cons_append.
    + injection Hg as <- <-.
      destruct (writer_alone _ _ _ _ _ Hinv) as [(H1 & H2 & H3 & H4) (Hw & Hrd & _)];
        try (left; cbn; unfold Concurrent.in_cs; now rewrite Hpc).
      { cbn; unfold Concurrent.in_cs; now rewrite Hpc. }
      eapply frame_writer; try eassumption; try reflexivity.
      * cbn. intros u Hu. now injection Hu as <-.
      * cbn. unfold Concurrent.finish. rewrite Hpc. cbn. same_history.
    + injection Hg as <- <-.
      destruct (writer_alone _ _ _ _ _ Hinv) as [(H1 & H2 & H3 & H4) (Hw & Hrd & _)];
        try (left; cbn; unfold Concurrent.in_cs; now rewrite Hpc).
      { cbn; unfold Concurrent.in_cs; now rewrite Hpc. }
      eapply frame_writer; try eassumption; try reflexivity.
      * cbn. discriminate.
      * cbn. unfold Concurrent.finish. rewrite Hpc. cbn. same_history.
    + injection Hg as <- <-.
      destruct (writer_alone _ _ _ _ _ Hinv) as [(H1 & H2 & H3 & H4) (Hw & Hrd & _)];
        try (left; cbn; unfold Concurrent.in_cs; now rewrite Hpc).
      { cbn; unfold Concurrent.in_cs; now rewrite Hpc. }
      eapply frame_writer; try eassumption; try reflexivity.
      * cbn. discriminate.
      * cbn. unfold Concurrent.finish. rewrite Hpc. cbn. same_history.
    + unfold Concurrent.Unlock in Hg.
      destruct (Concurrent.writer (Concurrent.mu sh)) eqn:Hw; [|discriminate].
      injection Hg as <- <-.
      destruct (writer_alone _ _ _ _ _ Hinv) as [(H1 & H2 & H3 & H4) (_ & Hrd & _)];
        try (left; cbn; unfold Concurrent.in_cs; now rewrite Hpc).
      { cbn; unfold Concurrent.in_cs; now rewrite Hpc. }
      eapply frame_writer; try eassumption; try reflexivity.
      * cbn. discriminate.
      * cbn. unfold Concurrent.finish. rewrite Hpc. cbn. same_history.
    + discriminate.
  - (* Get *)
    destruct pc as [| |u ok|u ok]; cbn [Goroutines.tstep] in Ht.
    + unfold Goroutines.RLock in Ht.
      destruct (Concurrent.writer (Concurrent.mu sh)) eqn:Hw; [discriminate|].
      injection Ht as <- <-.
      destruct (no_writer _ _ _ _ _ Hinv) as (_ & H1 & Ht0 & H2); [now left|].
      eapply frame_reader; try eassumption; try reflexivity.
      * cbn. lia.
      * now left.
    + injection Ht as <- <-.
      destruct (no_writer _ _ _ _ _ Hinv) as (Hw & H1 & Ht0 & H2); [now right|].
      eapply frame_reader; try eassumption; try reflexivity.
      right. split; [reflexivity|]. do 2 eexists. split; [reflexivity|].
      pose proof (step_get (Concurrent.guarded sh) id) as Hs.
      cbn. unfold Get in Hs |- *.
      destruct (users (Concurrent.guarded sh) !! id); exact Hs.
    + unfold Goroutines.RUnlock in Ht.
      destruct (no_writer _ _ _ _ _ Hinv) as (Hw & H1 & Ht0 & H2); [now right|].
      destruct (Concurrent.readers (Concurrent.mu sh)) eqn:Hrd; [discriminate|].
      injection Ht as <- <-.
      eapply frame_reader; try eassumption; try reflexivity.
      * cbn. lia.
      * now left.
    + discriminate.
  - (* List *)
    destruct pc as [| |visited out|out|out]; cbn [Goroutines.tstep] in Ht.
    + unfold Goroutines.RLock in Ht.
      destruct (Concurrent.writer (Concurrent.mu sh)) eqn:Hw; [discriminate|].
      injection Ht as <- <-.
      destruct (no_writer _ _ _ _ _ Hinv) as (_ & H1 & Ht0 & H2); [now left|].
      eapply frame_reader; try eassumption; try reflexivity.
      * cbn. lia.
      * now left.
    + injection Ht as <- <-.
      destruct (no_writer _ _ _ _ _ Hinv) as (Hw & H1 & Ht0 & H2); [now right|].
      eapply frame_reader; try eassumption; try reflexivity.
      * cbn. split; constructor.
      * now left.
    + destruct (no_writer _ _ _ _ _ Hinv) as (Hw & H1 & Ht0 & H2); [now right|].
      destruct Hco as [Hnd Hf].
      destruct (Goroutines.all_visited (users (Concurrent.guarded sh)) visited) eqn:Hall.
      * injection Ht as <- <-.
        eapply frame_reader; try eassumption; try reflexivity.
        right. split; [reflexivity|].
        destruct (loop_done _ _ _ Hnd Hf Hall) as (entries & Hord & ->).
        do 2 eexists. split; [reflexivity|]. now apply step_list.
      * destruct (users (Concurrent.guarded sh) !! c) as [u|] eqn:Hc; [|discriminate].
        destruct (bool_decide (c ∈ visited)) eqn:Hin; [discriminate|].
        apply bool_decide_eq_false in Hin.
        injection Ht as <- <-.
        eapply frame_reader; try eassumption; try reflexivity.
        -- cbn. split.
           ++ apply NoDup_app. repeat split; [assumption| |apply NoDup_singleton].
              intros x Hx Hx'. apply list_elem_of_singleton in Hx'. now subst.
           ++ apply Forall2_app; [assumption|]. now repeat constructor.
        -- now left.
    + unfold Goroutines.RUnlock in Ht.
      destruct (no_writer _ _ _ _ _ Hinv) as (Hw & H1 & Ht0 & H2); [now right|].
      destruct (Concurrent.readers (Concurrent.mu sh)) eqn:Hrd; [discriminate|].
      injection Ht as <- <-.
      eapply frame_reader; try eassumption; try reflexivity.
      * cbn. lia.
      * now left.
    + discriminate.
  - (* Delete *)
    destruct pc as [| | |b|b]; cbn [Goroutines.tstep] in Ht.
    + unfold Concurrent.Lock in Ht.
      destruct (Concurrent.writer (Concurrent.mu sh)) eqn:Hw; [discriminate|].
      destruct (Concurrent.readers (Concurrent.mu sh)) eqn:Hrd; [|discriminate].
      cbn in Ht. injection Ht as <- <-.
      destruct (writer_alone _ _ _ _ _ Hinv) as [(H1 & H2 & H3 & H4) _]; [now right|].
      eapply frame_writer; try eassumption; try reflexivity.
      intros Hex. cbn in Hex |- *.
      exists (h ++ [(CallDelete id, RetBool (fst (Delete (Concurrent.guarded sh) id)))]).
      split; [now apply prefix_app_r|].
      split; [econstructor; [exact Hex|apply step_delete]|].
      intros X Y HP. rewrite HP. cbn.
      rewrite <- app_assoc. apply Permutation_app_head.
      symmetry. apply Permutation_cons_append.
    + destruct (writer_alone _ _ _ _ _ Hinv) as [(H1 & H2 & H3 & H4) (Hw & Hrd & _)];
        [now left|reflexivity|].
      destruct (users (Concurrent.guarded sh) !! id) as [u|] eqn:Hid;
        injection Ht as <- <-.
      * eapply frame_writer; try eassumption; try reflexivity.
        cbn. unfold Delete. rewrite Hid. cbn. same_history.
      * eapply frame_writer; try eassumption; try reflexivity.
        cbn. unfold Delete. rewrite Hid. cbn. same_history.
    + injection Ht as <- <-.
      destruct (writer_alone _ _ _ _ _ Hinv) as [(H1 & H2 & H3 & H4) (Hw & Hrd & _)];
        [now left|reflexivity|].
      eapply frame_writer; try eassumption; try reflexivity.
      cbn. same_history.
    + unfold Concurrent.Unlock in Ht.
      destruct (writer_alone _ _ _ _ _ Hinv) as [(H1 & H2 & H3 & H4) (Hw & Hrd & _)];
        [now left|reflexivity|].
      rewrite Hw in Ht. injection Ht as <- <-.
      eapply frame_writer; try eassumption; try reflexivity.
      cbn. same_history.
    + discriminate.
Qed.

Lemma tlinearized_launch calls : Goroutines.serialized [] (Goroutines.spawn calls).
Proof.
  unfold Goroutines.serialized, Goroutines.spawn.
  cbn [fst snd Concurrent.mu Concurrent.guarded Concurrent.readers Concurrent.writer].
  assert (Hw : Forall (fun t => Goroutines.writing t = false) (Goroutines.start <$> calls)).
  { apply Forall_fmap, Forall_true. now intros []. }
  assert (Hr : Forall (fun t => Goroutines.reading t = false) (Goroutines.start <$> calls)).
  { apply Forall_fmap, Forall_true. now intros []. }
  rewrite (proj2 (filter_nil_false _ _) Hw), (proj2 (filter_nil_false _ _) Hr).
  split; [reflexivity|]. split; [reflexivity|]. split; [discriminate|].
  split; [now apply Forall_coherent_outside|]. split.
  - unfold Goroutines.rolled_forward. cbn [fst snd Concurrent.guarded].
    rewrite foldr_tfinish_outside by assumption. constructor.
  - clear Hw Hr. induction calls as [|c calls IH]; [reflexivity|].
    destruct c; cbn; exact IH.
Qed.

Lemma tlinearized_sched_step ic h cfg cfg' :
  Goroutines.serialized h cfg -> Goroutines.pool_step ic cfg = Some cfg' ->
  exists h', Goroutines.serialized h' cfg' /\ h `prefix_of` h'.
Proof.
  destruct cfg as [sh ts], cfg' as [sh' ts']. intros Hinv Hstep.
  apply tsched_step_inv in Hstep as (t & t' & l1 & l2 & -> & -> & Ht).
  eapply tlinearized_step; eassumption.
Qed.

(** The invariant holds all along every interleaving, and the history only
    grows at its end. *)
Lemma tlinearized_run sched : forall h cfg cfg',
  Goroutines.serialized h cfg -> Goroutines.interleave sched cfg = Some cfg' ->
  exists h', Goroutines.serialized h' cfg' /\ h `prefix_of` h'.
Proof.
  induction sched as [|ic sched IH]; intros h cfg cfg' Hinv Hrun; simpl in Hrun.
  - injection Hrun as <-. exists h. split; [assumption|reflexivity].
  - destruct (Goroutines.pool_step ic cfg) as [cfg1|] eqn:Hstep; [|discriminate].
    destruct (tlinearized_sched_step _ _ _ _ Hinv Hstep) as (h1 & Hinv1 & Hp1).
    destruct (IH _ _ _ Hinv1 Hrun) as (h' & Hinv' & Hp').
    exists h'. split; [assumption|]. etransitivity; eassumption.
Qed.

Lemma tstep_call_of c sh t sh' t' :
  Goroutines.tstep c sh t = Some (sh', t') -> Goroutines.call_of t' = Goroutines.call_of t.
Proof.
  destruct t as [g|id pc|pc|id pc]; cbn [Goroutines.tstep].
  - destruct (Concurrent.gstep sh g) as [[sh1 g1]|] eqn:Hg; [|discriminate].
    intros [= <- <-]. apply gstep_args in Hg as [Hn He]. cbn. now rewrite Hn, He.
  - destruct pc; try destruct (Goroutines.RLock _); try destruct (Goroutines.RUnlock _);
      try discriminate; now intros [= <- <-].
  - destruct pc; try destruct (Goroutines.RLock _); try destruct (Goroutines.RUnlock _);
      try destruct (Goroutines.all_visited _ _); try destruct (users _ !! c);
      try destruct (bool_decide _);
      try discriminate; now intros [= <- <-].
  - destruct pc; try destruct (Concurrent.Lock _); try destruct (Concurrent.Unlock _);
      try destruct (users _ !! id);
      try discriminate; now intros [= <- <-].
Qed.

(** A run changes no goroutine's call. *)
Lemma trun_calls sched : forall cfg cfg',
  Goroutines.interleave sched cfg = Some cfg' ->
  Goroutines.call_of <$> snd cfg' = Goroutines.call_of <$> snd cfg.
Proof.
  induction sched as [|ic sched IH]; intros cfg cfg' Hrun; simpl in Hrun.
  - now injection Hrun as <-.
  - destruct (Goroutines.pool_step ic cfg) as [cfg1|] eqn:Hstep; [|discriminate].
    rewrite (IH _ _ Hrun). destruct cfg as [sh ts], cfg1 as [sh1 ts1].
    apply tsched_step_inv in Hstep as (t & t' & l1 & l2 & -> & -> & Ht).
    cbn [snd]. rewrite !fmap_app, !fmap_cons. now rewrite (tstep_call_of _ _ _ _ _ Ht).
Qed.

Lemma call_of_launch calls : Goroutines.call_of <$> snd (Goroutines.spawn calls) = calls.
Proof.
  cbn [snd Goroutines.spawn]. induction calls as [|c calls IH]; [reflexivity|].
  cbn. rewrite IH. now destruct c.
Qed.

Lemma treturned_outside ts :
  forallb Goroutines.is_done ts = true ->
  Forall (fun t => Goroutines.writing t = false) ts.
Proof.
  induction ts as [|t ts IH]; simpl; [constructor|].
  intros [Ht Hts]%andb_true_iff. constructor; [|auto].
  unfold Goroutines.is_done in Ht.
  destruct t as [g|id pc|pc|id pc]; cbn in Ht |- *.
  - unfold Concurrent.in_cs. destruct (Concurrent.pc g); (discriminate || reflexivity).
  - reflexivity.
  - reflexivity.
  - destruct pc; (discriminate || reflexivity).
Qed.

(** Once every goroutine has returned, the calls whose effect is fixed are
    all the calls, with what they returned. *)
Lemma tentries_returned s sh ts :
  forallb Goroutines.is_done ts = true ->
  omap (Goroutines.fixed_call s) ts = Goroutines.outcomes (sh, ts) /\
  fst <$> Goroutines.outcomes (sh, ts) = Goroutines.call_of <$> ts.
Proof.
  unfold Goroutines.outcomes. cbn [snd].
  induction ts as [|t ts IH]; [now intros _|].
  intros [Ht Hts]%andb_true_iff. destruct (IH Hts) as [IH1 IH2].
  unfold Goroutines.is_done in Ht.
  destruct t as [g|id pc|pc|id pc]; cbn in Ht |- *.
  - destruct (Concurrent.pc g); try discriminate. cbn. now rewrite IH1, IH2.
  - destruct pc; try discriminate. cbn. now rewrite IH1, IH2.
  - destruct pc; try discriminate. cbn. now rewrite IH1, IH2.
  - destruct pc; try discriminate. cbn. now rewrite IH1, IH2.
Qed.

(** The calls that have returned are among those whose effect is fixed. *)
Lemma outcomes_fixed s sh ts :
  Goroutines.outcomes (sh, ts) ⊆+ omap (Goroutines.fixed_call s) ts.
Proof.
  unfold Goroutines.outcomes. cbn [snd].
  induction ts as [|t ts IH]; [reflexivity|].
  destruct t as [g|id pc|pc|id pc]; cbn.
  - destruct (Concurrent.pc g); try (now constructor); assumption.
  - destruct pc; try (now constructor); assumption.
  - destruct pc; try (now constructor); assumption.
  - destruct pc; try (now constructor); assumption.
Qed.

(** A call whose effect is fixed is not waiting for the mutex. *)
Lemma fixed_not_waiting s ts :
  (length (omap (Goroutines.fixed_call s) ts) + length (List.filter Goroutines.waiting ts)
   <= length ts)%nat.
Proof.
  induction ts as [|t ts IH]; [reflexivity|].
  destruct t as [g|id pc|pc|id pc]; cbn [omap list_omap List.filter Goroutines.fixed_call Goroutines.waiting].
  - destruct (Concurrent.pc g); cbn [length]; lia.
  - destruct pc; cbn [length]; lia.
  - destruct pc; cbn [length]; lia.
  - destruct pc; cbn [length]; lia.
Qed.

(** Property X13: concurrent calls of [Create], [Get], [List] and [Delete] on a
    fresh store, one goroutine per call, interleaved statement by statement
    in any way: once all have returned, the calls with their results are
    those of the same calls made one after the other in some order, and the
    store is in the state that sequence leaves. *)
Theorem concurrent_calls_serializable calls sched cfg :
  Goroutines.interleave sched (Goroutines.spawn calls) = Some cfg ->
  Goroutines.all_done cfg = true ->
  fst <$> Goroutines.outcomes cfg = calls /\
  exists h, exec NewUserStore h (Concurrent.guarded (fst cfg)) /\
            h ≡ₚ Goroutines.outcomes cfg.
Proof.
  intros Hrun Hall.
  destruct (tlinearized_run _ _ _ _ (tlinearized_launch calls) Hrun)
    as (h & (_ & _ & _ & _ & Hex & Hperm) & _).
  pose proof (trun_calls _ _ _ Hrun) as Hcalls. rewrite call_of_launch in Hcalls.
  destruct cfg as [sh ts]. unfold Goroutines.all_done in Hall. cbn [fst snd] in *.
  destruct (tentries_returned (Concurrent.guarded sh) sh ts Hall) as [He Hc].
  split; [now rewrite Hc|].
  exists h. split.
  - unfold Goroutines.rolled_forward in Hex. cbn [fst snd] in Hex.
    rewrite foldr_tfinish_outside in Hex by now apply treturned_outside.
    exact Hex.
  - now rewrite <- He.
Qed.

Lemma concurrent_calls_serializable_witness :
  let calls := [CallCreate "Ann" "a@x.com"; CallList; CallGet 1; CallDelete 1] in
  let sched := [(0%nat, 0); (0%nat, 0); (0%nat, 0); (0%nat, 0); (0%nat, 0);
                (1%nat, 0); (2%nat, 0); (2%nat, 0); (1%nat, 0); (1%nat, 1); (1%nat, 0); (2%nat, 0); (1%nat, 0);
                (3%nat, 0); (3%nat, 0); (3%nat, 0); (3%nat, 0)] in
  exists cfg, Goroutines.interleave sched (Goroutines.spawn calls) = Some cfg /\
    Goroutines.all_done cfg = true /\
    fst <$> Goroutines.outcomes cfg = calls /\
    exists h, exec NewUserStore h (Concurrent.guarded (fst cfg)) /\
              h ≡ₚ Goroutines.outcomes cfg.
Proof.
  intros calls sched.
  destruct (Goroutines.interleave sched (Goroutines.spawn calls)) as [cfg|] eqn:Hrun;
    [|vm_compute in Hrun; discriminate].
  assert (Hall : Goroutines.all_done cfg = true)
    by (vm_compute in Hrun; injection Hrun as <-; reflexivity).
  exists cfg. split; [reflexivity|]. split; [exact Hall|].
  exact (concurrent_calls_serializable calls sched cfg Hrun Hall).
Defined.

(** Property X14: the order of that sequence respects the order in which the
    calls took effect.  Stop the run at any point: the calls whose effect is
    fixed by then (all that have returned among them, none that is still
    waiting for the mutex) come first in the sequence, the others after
    them. *)
Theorem calls_take_effect_in_order calls sched1 sched2 cfg1 cfg2 :
  Goroutines.interleave sched1 (Goroutines.spawn calls) = Some cfg1 ->
  Goroutines.interleave sched2 cfg1 = Some cfg2 ->
  Goroutines.all_done cfg2 = true ->
  exists h1 h2,
    exec NewUserStore (h1 ++ h2) (Concurrent.guarded (fst cfg2)) /\
    h1 ++ h2 ≡ₚ Goroutines.outcomes cfg2 /\
    h1 ≡ₚ omap (Goroutines.fixed_call (Concurrent.guarded (fst cfg1))) (snd cfg1) /\
    Goroutines.outcomes cfg1 ⊆+ h1 /\
    (length h1 + length (List.filter Goroutines.waiting (snd cfg1)) <= length calls)%nat.
Proof.
  intros Hrun1 Hrun2 Hall.
  destruct (tlinearized_run _ _ _ _ (tlinearized_launch calls) Hrun1)
    as (h1 & Hinv1 & _).
  destruct (tlinearized_run _ _ _ _ Hinv1 Hrun2)
    as (h & (_ & _ & _ & _ & Hex & Hperm) & [h2 ->]).
  destruct Hinv1 as (_ & _ & _ & _ & _ & Hperm1).
  pose proof (trun_calls _ _ _ Hrun1) as Hcalls. rewrite call_of_launch in Hcalls.
  exists h1, h2.
  destruct cfg2 as [sh ts]. unfold Goroutines.all_done in Hall. cbn [fst snd] in *.
  destruct (tentries_returned (Concurrent.guarded sh) sh ts Hall) as [He Hc].
  split; [|split; [|split; [|split]]].
  - unfold Goroutines.rolled_forward in Hex. cbn [fst snd] in Hex.
    rewrite foldr_tfinish_outside in Hex by now apply treturned_outside.
    exact Hex.
  - now rewrite <- He.
  - exact Hperm1.
  - rewrite Hperm1. destruct cfg1 as [sh1 ts1]. apply outcomes_fixed.
  - rewrite Hperm1. rewrite <- Hcalls, length_fmap. apply fixed_not_waiting.
Qed.

Lemma calls_take_effect_in_order_witness :
  let calls := [CallCreate "Ann" "a@x.com"; CallList; CallGet 1; CallDelete 1] in
  let sched1 := [(0%nat, 0); (0%nat, 0); (0%nat, 0); (0%nat, 0); (0%nat, 0); (1%nat, 0); (2%nat, 0)] in
  let sched2 := [(2%nat, 0); (1%nat, 0); (1%nat, 1); (1%nat, 0); (2%nat, 0); (1%nat, 0);
                 (3%nat, 0); (3%nat, 0); (3%nat, 0); (3%nat, 0)] in
  exists cfg1 cfg2,
    Goroutines.interleave sched1 (Goroutines.spawn calls) = Some cfg1 /\
    Goroutines.interleave sched2 cfg1 = Some cfg2 /\
    Goroutines.all_done cfg2 = true /\
    exists h1 h2,
      exec NewUserStore (h1 ++ h2) (Concurrent.guarded (fst cfg2)) /\
      h1 ++ h2 ≡ₚ Goroutines.outcomes cfg2 /\
      h1 ≡ₚ omap (Goroutines.fixed_call (Concurrent.guarded (fst cfg1))) (snd cfg1) /\
      Goroutines.outcomes cfg1 ⊆+ h1 /\
      (length h1 + length (List.filter Goroutines.waiting (snd cfg1)) <= length calls)%nat.
Proof.
  intros calls sched1 sched2.
  destruct (Goroutines.interleave sched1 (Goroutines.spawn calls)) as [cfg1|] eqn:Hrun1;
    [|vm_compute in Hrun1; discriminate].
  destruct (Goroutines.interleave sched2 cfg1) as [cfg2|] eqn:Hrun2;
    [|vm_compute in Hrun1; injection Hrun1 as <-; vm_compute in Hrun2; discriminate].
  assert (Hall : Goroutines.all_done cfg2 = true).
  { vm_compute in Hrun1. injection Hrun1 as <-.
    vm_compute in Hrun2. injection Hrun2 as <-. reflexivity. }
  exists cfg1, cfg2. split; [reflexivity|]. split; [exact Hrun2|]. split; [exact Hall|].
  exact (calls_take_effect_in_order calls sched1 sched2 cfg1 cfg2 Hrun1 Hrun2 Hall).
Defined.

(** Property X15: the lock discipline.  At every point of every interleaving, a
    goroutine that is between [Lock] and [Unlock] is the only one that
    holds the mutex: no other goroutine is between [Lock] and [Unlock] or
    between [RLock] and [RUnlock]. *)
Theorem writer_excludes_all calls sched cfg i j t1 t2 :
  Goroutines.interleave sched (Goroutines.spawn calls) = Some cfg ->
  snd cfg !! i = Some t1 -> snd cfg !! j = Some t2 -> i <> j ->
  Goroutines.writing t1 = true ->
  Goroutines.writing t2 = false /\ Goroutines.reading t2 = false.
Proof.
  intros Hrun Hi Hj Hij Hw.
  destruct (tlinearized_run _ _ _ _ (tlinearized_launch calls) Hrun) as (h & Hinv & _).
  destruct cfg as [sh ts]. cbn [snd] in *.
  rewrite <- (take_drop_middle ts i t1 Hi) in Hinv, Hj.
  destruct (writer_alone _ _ _ _ _ Hinv (or_introl Hw)) as [(H1 & H2 & H3 & H4) _].
  assert (Hlen : length (take i ts) = i).
  { apply length_take_le. apply lookup_lt_Some in Hi. lia. }
  destruct (decide (j < i)%nat) as [Hlt|Hge].
  - rewrite lookup_app_l in Hj by lia.
    split; [eapply (Forall_lookup_1 _ _ _ _ H1)|eapply (Forall_lookup_1 _ _ _ _ H3)];
      eassumption.
  - rewrite lookup_app_r in Hj by lia. rewrite Hlen in Hj.
    destruct (j - i)%nat as [|k] eqn:Hk; [lia|]. cbn in Hj.
    split; [eapply (Forall_lookup_1 _ _ _ _ H2)|eapply (Forall_lookup_1 _ _ _ _ H4)];
      eassumption.
Qed.

Lemma writer_excludes_all_witness :
  let calls := [CallCreate "Ann" "a@x.com"; CallList; CallGet 1; CallDelete 1] in
  exists cfg t1 t2,
    Goroutines.interleave [(0%nat, 0); (0%nat, 0)] (Goroutines.spawn calls) = Some cfg /\
    snd cfg !! 0%nat = Some t1 /\ snd cfg !! 1%nat = Some t2 /\
    Goroutines.writing t1 = true /\
    Goroutines.writing t2 = false /\ Goroutines.reading t2 = false.
Proof.
  intros calls.
  destruct (Goroutines.interleave [(0%nat, 0); (0%nat, 0)] (Goroutines.spawn calls))
    as [cfg|] eqn:Hrun; [|vm_compute in Hrun; discriminate].
  destruct (snd cfg !! 0%nat) as [t1|] eqn:H0;
    [|vm_compute in Hrun; injection Hrun as <-; vm_compute in H0; discriminate].
  destruct (snd cfg !! 1%nat) as [t2|] eqn:H1;
    [|vm_compute in Hrun; injection Hrun as <-; vm_compute in H1; discriminate].
  assert (Hw : Goroutines.writing t1 = true).
  { vm_compute in Hrun. injection Hrun as <-. injection H0 as <-. reflexivity. }
  exists cfg, t1, t2. split; [reflexivity|]. split; [exact H0|]. split; [exact H1|].
  split; [exact Hw|].
  exact (writer_excludes_all calls _ cfg 0%nat 1%nat t1 t2 Hrun H0 H1 ltac:(lia) Hw).
Defined.

(** [Get] and [List] leave the store as it is, so a history without them
    ends in the same state. *)
Lemma exec_updates s h s' :
  exec s h s' -> exec s (List.filter Goroutines.is_update h) s'.
Proof.
  induction 1 as [|h s1 c r s2 He IH Hstep]; [constructor|].
  rewrite List.filter_app. cbn [List.filter].
  inversion Hstep; subst; unfold Goroutines.is_update; cbn [fst].
  - econstructor; eassumption.
  - rewrite app_nil_r. unfold Get. destruct (users s1 !! id); exact IH.
  - rewrite app_nil_r. exact IH.
  - econstructor; eassumption.
Qed.

(** While no goroutine holds the write lock, the calls of [Create] and
    [Delete] whose effect is fixed are those that have returned. *)
Lemma updates_returned s sh ts :
  Forall (fun t => Goroutines.writing t = false) ts ->
  List.filter Goroutines.is_update (omap (Goroutines.fixed_call s) ts)
  = List.filter Goroutines.is_update (Goroutines.outcomes (sh, ts)).
Proof.
  unfold Goroutines.outcomes. cbn [snd].
  induction 1 as [|t ts Ht _ IH]; [reflexivity|].
  destruct t as [g|id pc|pc|id pc]; cbn in Ht |- *.
  - unfold Concurrent.in_cs in Ht.
    destruct (Concurrent.pc g); try discriminate; cbn; now rewrite ?IH.
  - destruct pc; cbn; now rewrite ?IH.
  - destruct pc; cbn; now rewrite ?IH.
  - destruct pc; try discriminate; cbn; now rewrite ?IH.
Qed.

Lemma filter_Permutation {A} (f : A -> bool) (l l' : list A) :
  l ≡ₚ l' -> List.filter f l ≡ₚ List.filter f l'.
Proof.
  induction 1 as [|x l l' _ IH|x y l|l1 l2 l3 _ IH1 _ IH2]; cbn.
  - reflexivity.
  - destruct (f x); [now constructor|exact IH].
  - destruct (f x), (f y); try reflexivity. apply perm_swap.
  - etransitivity; eassumption.
Qed.

(** Property X16: what a reader sees.  At every point of every interleaving
    of concurrent calls, while a goroutine is between [RLock] and [RUnlock]
    no goroutine is between [Lock] and [Unlock]; and whenever none is, the
    map and the counter are exactly what the calls of [Create] and [Delete]
    that have returned leave, made one after the other in some order on a
    fresh store: every such call is in them whole, and nothing of a call
    that has not returned. *)
Theorem readers_see_whole_calls calls sched cfg :
  Goroutines.interleave sched (Goroutines.spawn calls) = Some cfg ->
  (forall t, t ∈ snd cfg -> Goroutines.reading t = true ->
     Concurrent.writer (Concurrent.mu (fst cfg)) = false) /\
  (Concurrent.writer (Concurrent.mu (fst cfg)) = false ->
     Forall (fun t => Goroutines.writing t = false) (snd cfg) /\
     exists h, exec NewUserStore h (Concurrent.guarded (fst cfg)) /\
               h ≡ₚ List.filter Goroutines.is_update (Goroutines.outcomes cfg)).
Proof.
  intros Hrun.
  destruct (tlinearized_run _ _ _ _ (tlinearized_launch calls) Hrun) as (h & Hinv & _).
  destruct cfg as [sh ts]. cbn [fst snd] in *. split.
  - intros t Hin Hr. apply list_elem_of_split in Hin as (l1 & l2 & ->).
    now destruct (no_writer _ _ _ _ _ Hinv (or_intror Hr)).
  - intros Hw. destruct Hinv as (_ & Hcs & _ & _ & Hex & Hperm). cbn [fst snd] in *.
    rewrite Hw in Hcs. apply length_zero_iff_nil, filter_nil_false in Hcs.
    split; [exact Hcs|].
    unfold Goroutines.rolled_forward in Hex. cbn [fst snd] in Hex.
    rewrite foldr_tfinish_outside in Hex by assumption.
    exists (List.filter Goroutines.is_update h). split; [now apply exec_updates|].
    rewrite <- (updates_returned (Concurrent.guarded sh) sh ts Hcs).
    now apply filter_Permutation.
Qed.

Lemma readers_see_whole_calls_witness :
  let calls := [CallCreate "Ann" "a@x.com"; CallList; CallGet 1; CallDelete 1;
                CallCreate "Bob" "b@x.com"] in
  let sched := [(0%nat, 0); (0%nat, 0); (0%nat, 0); (0%nat, 0); (0%nat, 0);
                (1%nat, 0); (2%nat, 0)] in
  exists cfg, Goroutines.interleave sched (Goroutines.spawn calls) = Some cfg /\
    Concurrent.writer (Concurrent.mu (fst cfg)) = false /\
    Forall (fun t => Goroutines.writing t = false) (snd cfg) /\
    exists h, exec NewUserStore h (Concurrent.guarded (fst cfg)) /\
              h ≡ₚ List.filter Goroutines.is_update (Goroutines.outcomes cfg).
Proof.
  intros calls sched.
  destruct (Goroutines.interleave sched (Goroutines.spawn calls)) as [cfg|] eqn:Hrun;
    [|vm_compute in Hrun; discriminate].
  assert (Hw : Concurrent.writer (Concurrent.mu (fst cfg)) = false)
    by (vm_compute in Hrun; injection Hrun as <-; reflexivity).
  exists cfg. split; [reflexivity|]. split; [exact Hw|].
  exact (proj2 (readers_see_whole_calls calls sched cfg Hrun) Hw).
Defined.

(** The state of the witness: one [Create] has returned, so the store holds
    its record and the counter stands at 2. *)
Example readers_see_one_record :
  match Goroutines.interleave
          [(0%nat, 0); (0%nat, 0); (0%nat, 0); (0%nat, 0); (0%nat, 0); (1%nat, 0); (2%nat, 0)]
          (Goroutines.spawn [CallCreate "Ann" "a@x.com"; CallList; CallGet 1; CallDelete 1;
                             CallCreate "Bob" "b@x.com"]) with
  | Some cfg =>
      List.filter Goroutines.is_update (Goroutines.outcomes cfg)
      = [(CallCreate "Ann" "a@x.com", RetUser (mkUser 1 "Ann" "a@x.com"))] /\
      Concurrent.guarded (fst cfg)
      = mkStore {[1 := mkUser 1 "Ann" "a@x.com"]} 2
  | None => False
  end.
Proof. vm_compute. split; reflexivity. Qed.

(** A store holds at most as many records as [Create] was called. *)
Lemma size_le_creates h s :
  exec NewUserStore h s -> (size (users s) <= creates h)%nat.
Proof.
  induction 1 as [|h s1 c r s2 He IH Hstep]; [cbn; rewrite map_size_empty; lia|].
  rewrite creates_snoc.
  inversion Hstep; subst; unfold is_create; cbn.
  - rewrite map_size_insert. destruct (users s1 !! next s1); unfold id; lia.
  - unfold Get. destruct (users s1 !! id); cbn; lia.
  - lia.
  - unfold Delete. destruct (users s1 !! id) eqn:E; cbn; [|lia].
    rewrite map_size_delete, E. lia.
Qed.

Lemma creates_le_length h : (creates h <= length h)%nat.
Proof. unfold creates. apply List.filter_length_le. Qed.

(** The keys the [range] loop has produced are fewer than the records as
    long as one is left to produce. *)
Lemma visited_bound (m : gmap Z User) visited out c :
  NoDup visited ->
  Forall2 (fun k u => m !! k = Some u) visited out ->
  is_Some (m !! c) -> c ∉ visited ->
  (length visited < size m)%nat.
Proof.
  intros Hnd Hf [u Hc] Hnot.
  assert (Hsub : c :: visited ⊆+ (map_to_list m).*1).
  { apply NoDup_submseteq; [now constructor|].
    intros k Hk. apply list_elem_of_fmap.
    apply elem_of_cons in Hk as [->|Hk].
    - exists (c, u). split; [reflexivity|]. now apply elem_of_map_to_list.
    - apply list_elem_of_lookup_1 in Hk as [i Hi].
      destruct (Forall2_lookup_l _ _ _ _ _ Hf Hi) as (u' & _ & Hu').
      exists (k, u'). split; [reflexivity|]. now apply elem_of_map_to_list. }
  apply submseteq_length in Hsub.
  rewrite length_fmap, length_map_to_list in Hsub. cbn in Hsub. lia.
Qed.

Lemma forallb_false_ex {A} (f : A -> bool) l :
  forallb f l = false -> exists x, x ∈ l /\ f x = false.
Proof.
  induction l as [|x l IH]; cbn; [discriminate|].
  destruct (f x) eqn:E; cbn.
  - intros H. destruct (IH H) as (y & Hy & Hfy). exists y. split; [now right|assumption].
  - intros _. exists x. split; [now left|assumption].
Qed.

(** While no goroutine holds the write lock, the store holds at most one
    record per goroutine. *)
Lemma records_bound h sh ts :
  Goroutines.serialized h (sh, ts) ->
  Concurrent.writer (Concurrent.mu sh) = false ->
  (size (users (Concurrent.guarded sh)) <= length ts)%nat.
Proof.
  intros (_ & Hcs & _ & _ & Hex & Hperm) Hw. cbn [fst snd] in *.
  rewrite Hw in Hcs. apply length_zero_iff_nil, filter_nil_false in Hcs.
  unfold Goroutines.rolled_forward in Hex. cbn [fst snd] in Hex.
  rewrite foldr_tfinish_outside in Hex by assumption.
  pose proof (size_le_creates _ _ Hex) as H1.
  pose proof (creates_le_length h) as H2.
  rewrite Hperm in H2 at 2.
  pose proof (fixed_not_waiting (Concurrent.guarded sh) ts). lia.
Qed.

(** Every statement uses up some of what its goroutine has left. *)
Lemma tstep_remaining c h sh l1 t l2 sh' t' :
  Goroutines.serialized h (sh, l1 ++ t :: l2) ->
  Goroutines.tstep c sh t = Some (sh', t') ->
  (Goroutines.statements_left (length (l1 ++ t :: l2)) t'
   < Goroutines.statements_left (length (l1 ++ t :: l2)) t)%nat.
Proof.
  intros Hinv Ht.
  pose proof (coherent_middle _ _ _ _ (proj1 (proj2 (proj2 (proj2 Hinv))))) as Hco.
  cbn [fst snd] in Hco.
  destruct t as [g|id pc|pc|id pc]; cbn [Goroutines.tstep] in Ht.
  - destruct (Concurrent.gstep sh g) as [[sh1 g1]|] eqn:Hg; [|discriminate].
    injection Ht as <- <-. apply gstep_remaining in Hg. cbn. lia.
  - destruct pc; try destruct (Goroutines.RLock _); try destruct (Goroutines.RUnlock _);
      try discriminate; injection Ht as <- <-; cbn; lia.
  - destruct pc as [| |visited out|out|out];
      try destruct (Goroutines.RLock _); try destruct (Goroutines.RUnlock _);
      try discriminate; try (injection Ht as <- <-; cbn; lia).
    destruct (Goroutines.all_visited _ _);
      [injection Ht as <- <-; cbn [Goroutines.statements_left]; lia|].
    destruct (users (Concurrent.guarded sh) !! c) as [u|] eqn:Hc; [|discriminate].
    destruct (bool_decide (c ∈ visited)) eqn:Hin; [discriminate|].
    apply bool_decide_eq_false in Hin. injection Ht as <- <-.
    destruct Hco as [Hnd Hf].
    pose proof (visited_bound _ _ _ c Hnd Hf (mk_is_Some _ _ Hc) Hin) as Hlt.
    destruct (no_writer _ _ _ _ _ Hinv (or_intror eq_refl)) as (Hw & _).
    pose proof (records_bound _ _ _ Hinv Hw) as Hsz.
    cbn [Goroutines.statements_left]. rewrite !length_app in *. cbn [length] in *. lia.
  - destruct pc; try destruct (Concurrent.Lock _); try destruct (Concurrent.Unlock _);
      try destruct (users _ !! id);
      try discriminate; injection Ht as <- <-; cbn; lia.
Qed.

Lemma tsched_step_remaining ic h cfg cfg' :
  Goroutines.serialized h cfg -> Goroutines.pool_step ic cfg = Some cfg' ->
  (Goroutines.total_left cfg' < Goroutines.total_left cfg)%nat.
Proof.
  destruct cfg as [sh ts], cfg' as [sh' ts']. intros Hinv Hstep.
  apply tsched_step_inv in Hstep as (t & t' & l1 & l2 & -> & -> & Ht).
  pose proof (tstep_remaining _ _ _ _ _ _ _ _ Hinv Ht) as Hlt.
  unfold Goroutines.total_left. cbn [snd].
  rewrite !length_app in *. cbn [length] in *.
  rewrite !fmap_app, !fmap_cons, !sum_list_with_app. cbn [sum_list_with].
  unfold id. lia.
Qed.

(** The length of an interleaving is bounded by what the goroutines have
    left at its start. *)
Lemma trun_remaining sched : forall h cfg cfg',
  Goroutines.serialized h cfg -> Goroutines.interleave sched cfg = Some cfg' ->
  (length sched + Goroutines.total_left cfg' <= Goroutines.total_left cfg)%nat.
Proof.
  induction sched as [|ic sched IH]; intros h cfg cfg' Hinv Hrun; simpl in Hrun.
  - injection Hrun as <-. cbn. lia.
  - destruct (Goroutines.pool_step ic cfg) as [cfg1|] eqn:Hstep; [|discriminate].
    destruct (tlinearized_sched_step _ _ _ _ Hinv Hstep) as (h1 & Hinv1 & _).
    pose proof (tsched_step_remaining _ _ _ _ Hinv Hstep).
    pose proof (IH _ _ _ Hinv1 Hrun). cbn [length]. lia.
Qed.

Lemma remaining_start n calls :
  (sum_list (Goroutines.statements_left n <$> (Goroutines.start <$> calls))
   <= length calls * (n + 5))%nat.
Proof.
  induction calls as [|c calls IH]; [cbn; lia|].
  rewrite !fmap_cons. cbn [sum_list sum_list_with length]. unfold id.
  assert (Goroutines.statements_left n (Goroutines.start c) <= n + 5)%nat by (destruct c; cbn; lia).
  change (sum_list_with (fun x => x) ?l) with (sum_list l).
  lia.
Qed.

Lemma total_left_spawn calls :
  (Goroutines.total_left (Goroutines.spawn calls)
   <= length calls * (length calls + 5))%nat.
Proof.
  unfold Goroutines.total_left, Goroutines.spawn. cbn [snd].
  rewrite length_fmap. apply remaining_start.
Qed.

(** A goroutine that holds the mutex is never blocked. *)
Lemma holder_runs h sh l1 t l2 :
  Goroutines.serialized h (sh, l1 ++ t :: l2) ->
  Goroutines.writing t = true \/ Goroutines.reading t = true ->
  exists c sh' t', Goroutines.tstep c sh t = Some (sh', t').
Proof.
  intros Hinv Hhold.
  assert (Hm : (Goroutines.writing t = true -> Concurrent.writer (Concurrent.mu sh) = true) /\
               (Goroutines.reading t = true ->
                exists n, Concurrent.readers (Concurrent.mu sh) = S n)).
  { split.
    - intros Hw. now destruct (writer_alone _ _ _ _ _ Hinv (or_introl Hw)) as [_ [? _]].
    - intros Hr. destruct Hinv as (Hrd & _). cbn [fst snd] in Hrd.
      rewrite filter_middle, !length_app, Hr in Hrd. cbn [length] in Hrd.
      destruct (Concurrent.readers (Concurrent.mu sh)); [lia|eauto]. }
  destruct Hm as [Hmw Hmr].
  destruct t as [g|id pc|pc|id pc]; cbn [Goroutines.tstep].
  - destruct Hhold as [Hw|Hr]; [|discriminate]. specialize (Hmw Hw).
    cbn in Hw. unfold Concurrent.in_cs in Hw.
    unfold Concurrent.gstep, Concurrent.Unlock. rewrite Hmw.
    exists 0. destruct (Concurrent.pc g); try discriminate; eauto.
  - destruct Hhold as [Hw|Hr]; [discriminate|]. destruct (Hmr Hr) as [n Hn].
    unfold Goroutines.RUnlock. rewrite Hn.
    exists 0. destruct pc; try discriminate; eauto.
  - destruct Hhold as [Hw|Hr]; [discriminate|]. destruct (Hmr Hr) as [n Hn].
    unfold Goroutines.RUnlock. rewrite Hn.
    destruct pc as [| |visited out|out|out]; try discriminate; try (exists 0; eauto; fail).
    destruct (Goroutines.all_visited (users (Concurrent.guarded sh)) visited) eqn:Hall;
      [exists 0; eauto|].
    unfold Goroutines.all_visited in Hall.
    apply forallb_false_ex in Hall as ([k u] & Hin & Hk).
    apply elem_of_map_to_list in Hin. cbn [fst] in Hk.
    exists k. rewrite Hin, Hk. eauto.
  - destruct Hhold as [Hw|Hr]; [|destruct pc; discriminate]. specialize (Hmw Hw).
    unfold Concurrent.Unlock. rewrite Hmw.
    exists 0. destruct pc; try discriminate; try destruct (users _ !! id); eauto.
Qed.

(** Property X17: a goroutine that holds the mutex is never held up.  At
    every point of every interleaving, a goroutine between [Lock] and
    [Unlock] or between [RLock] and [RUnlock] can run its next statement:
    [Unlock] and [RUnlock] find the mutex held the way they expect, and the
    [range] loop of [List] has either produced every key or has one more to
    produce. *)
Theorem lock_holder_never_blocks calls sched cfg i t :
  Goroutines.interleave sched (Goroutines.spawn calls) = Some cfg ->
  snd cfg !! i = Some t ->
  Goroutines.writing t = true \/ Goroutines.reading t = true ->
  exists c cfg', Goroutines.pool_step (i, c) cfg = Some cfg'.
Proof.
  intros Hrun Hi Hhold.
  destruct (tlinearized_run _ _ _ _ (tlinearized_launch calls) Hrun) as (h & Hinv & _).
  destruct cfg as [sh ts]. cbn [fst snd] in *.
  assert (Hlen : length (take i ts) = i).
  { apply length_take_le. apply lookup_lt_Some in Hi. lia. }
  rewrite <- (take_drop_middle ts i t Hi) in Hinv |- *.
  destruct (holder_runs _ _ _ _ _ Hinv Hhold) as (c & sh' & t' & Ht).
  exists c. eexists. rewrite <- Hlen at 1. apply tsched_step_middle. exact Ht.
Qed.

Lemma lock_holder_never_blocks_witness :
  let calls := [CallCreate "Ann" "a@x.com"; CallList; CallGet 1; CallDelete 1] in
  let sched := [(0%nat, 0); (0%nat, 0); (0%nat, 0); (0%nat, 0); (0%nat, 0); (1%nat, 0); (1%nat, 0)] in
  exists cfg t, Goroutines.interleave sched (Goroutines.spawn calls) = Some cfg /\
    snd cfg !! 1%nat = Some t /\ Goroutines.reading t = true /\
    exists c cfg', Goroutines.pool_step (1%nat, c) cfg = Some cfg'.
Proof.
  intros calls sched.
  destruct (Goroutines.interleave sched (Goroutines.spawn calls)) as [cfg|] eqn:Hrun;
    [|vm_compute in Hrun; discriminate].
  destruct (snd cfg !! 1%nat) as [t|] eqn:H1;
    [|vm_compute in Hrun; injection Hrun as <-; vm_compute in H1; discriminate].
  assert (Hr : Goroutines.reading t = true).
  { vm_compute in Hrun. injection Hrun as <-. injection H1 as <-. reflexivity. }
  exists cfg, t. split; [reflexivity|]. split; [exact H1|]. split; [exact Hr|].
  exact (lock_holder_never_blocks calls sched cfg 1%nat t Hrun H1 (or_intror Hr)).
Defined.

(** Property X18: no interleaving goes on for ever.  An interleaving of [n]
    concurrent calls has at most [n * (n + 5)] statements: every statement
    uses up some of what its goroutine has left, and the [range] loop of
    [List] makes at most one round per record, of which there are at most
    [n]. *)
Theorem interleavings_are_bounded calls sched cfg :
  Goroutines.interleave sched (Goroutines.spawn calls) = Some cfg ->
  (length sched + Goroutines.total_left cfg <= Goroutines.total_left (Goroutines.spawn calls))%nat /\
  (length sched <= length calls * (length calls + 5))%nat.
Proof.
  intros Hrun.
  pose proof (trun_remaining _ _ _ _ (tlinearized_launch calls) Hrun).
  pose proof (total_left_spawn calls). lia.
Qed.

Lemma interleavings_are_bounded_witness :
  let calls := [CallCreate "Ann" "a@x.com"; CallList; CallGet 1; CallDelete 1] in
  let sched := [(1%nat, 0); (2%nat, 0); (2%nat, 0)] in
  exists cfg, Goroutines.interleave sched (Goroutines.spawn calls) = Some cfg /\
    (length sched + Goroutines.total_left cfg
     <= Goroutines.total_left (Goroutines.spawn calls))%nat /\
    (length sched <= length calls * (length calls + 5))%nat.
Proof.
  intros calls sched.
  destruct (Goroutines.interleave sched (Goroutines.spawn calls)) as [cfg|] eqn:Hrun;
    [|vm_compute in Hrun; discriminate].
  exists cfg. split; [reflexivity|].
  exact (interleavings_are_bounded calls sched cfg Hrun).
Defined.
